(** * The AWS VPC route tracker of weave (ipam/tracker/awsvpc.go)

    A shallow embedding of the tracker's reconciliation code: the merge
    [removeCommon], the CIDR parser [parseCIDR] together with the parts of
    Go's [net] package it runs, and [HandleUpdate] with its four route
    methods over an explicit state (the tracker, the two routing tables
    behind the EC2 API and netlink, and the log of calls made to them). *)

From Stdlib Require Import ZArith Lia String Ascii.
From stdpp Require Import base tactics option list strings gmap.

Local Open Scope Z_scope.
#[local] Arguments String.append !_ _ / : simpl nomatch.

(** ** Go strings: byte sequences with slicing *)

Definition byte_of (c : ascii) : Z := Z.of_N (N_of_ascii c).
Definition char_of (b : Z) : ascii := ascii_of_N (Z.to_N b).

(** [s[n:]] *)
Fixpoint string_drop (n : nat) (s : string) : string :=
  match n, s with
  | O, _ => s
  | S n', String _ s' => string_drop n' s'
  | S _, EmptyString => EmptyString
  end.

(** [s[:n]] *)
Fixpoint string_take (n : nat) (s : string) : string :=
  match n, s with
  | O, _ => EmptyString
  | S n', String c s' => String c (string_take n' s')
  | S _, EmptyString => EmptyString
  end.

(** [byteIndex(s, c)]: the index of the first [c] in [s], or -1. *)
Fixpoint byteIndex (s : string) (c : ascii) : Z :=
  match s with
  | EmptyString => -1
  | String c' s' =>
      if Ascii.eqb c' c then 0
      else let i := byteIndex s' c in if i <? 0 then -1 else i + 1
  end.

(** ** Package net of the Go library, IPv4 paths

    Bytes are integers in [0, 256); an [IP] or [IPMask] is a byte slice,
    the nil slice being the empty list. The text of an IPv4 address is
    read as the library reads it since Go 1.17: an octet written with a
    leading zero is refused. *)

Definition IP := list Z.
Definition IPMask := list Z.

Definition IPv4len : Z := 4.
Definition IPv6len : Z := 16.

Definition byte (n : Z) : Z := n mod 256.

Definition v4InV6Prefix : list Z := [0; 0; 0; 0; 0; 0; 0; 0; 0; 0; 0xff; 0xff].

Definition IPv4 (a b c d : Z) : IP := v4InV6Prefix ++ [a; b; c; d].

Definition isZeros (p : list Z) : bool := forallb (Z.eqb 0) p.
Definition allFF (b : list Z) : bool := forallb (Z.eqb 0xff) b.

Definition len {A} (l : list A) : Z := Z.of_nat (length l).

(** [ip.To4()] *)
Definition To4 (ip : IP) : IP :=
  if len ip =? IPv4len then ip
  else if (len ip =? IPv6len) && isZeros (take 10 ip)
          && (ip !!! 10%nat =? 0xff) && (ip !!! 11%nat =? 0xff)
       then drop 12 (take 16 ip)
       else [].

(** Bigger than we need, not too big to worry about overflow *)
Definition big : Z := 0xFFFFFF.

Definition is_digit (c : ascii) : bool :=
  (byte_of "0" <=? byte_of c) && (byte_of c <=? byte_of "9").

(** The loop of [dtoi]: [n] is the number read so far, [i] the offset. The
    result is [(n, i, false)] when the number grows beyond [big]. *)
Fixpoint dtoi_loop (s : string) (n : Z) (i : nat) : Z * nat * bool :=
  match s with
  | String c s' =>
      if is_digit c then
        let n' := n * 10 + (byte_of c - byte_of "0") in
        if big <=? n' then (big, i, false)
        else dtoi_loop s' n' (S i)
      else (n, i, true)
  | EmptyString => (n, i, true)
  end.

(** Decimal to integer. Returns number, characters consumed, success. *)
Definition dtoi (s : string) : Z * nat * bool :=
  let '(n, i, ok) := dtoi_loop s 0 0 in
  if negb ok then (n, i, false)
  else if (i =? 0)%nat then (0, 0%nat, false)
  else (n, i, true).

(** [s[0] == c], for a string that may be empty. *)
Definition head_is (c : ascii) (s : string) : bool :=
  match s with
  | String c' _ => Ascii.eqb c' c
  | EmptyString => false
  end.

(** The loop [for i := 0; i < IPv4len; i++] of [parseIPv4], with [fuel]
    the number of iterations left; [None] is the [return nil] inside it. *)
Fixpoint parseIPv4_loop (fuel : nat) (i : nat) (s : string) (p : list Z)
  : option (string * list Z) :=
  match fuel with
  | O => Some (s, p)
  | S fuel' =>
      if (String.length s =? 0)%nat then None (* Missing octets. *)
      else
        match (if (0 <? i)%nat
               then match s with
                    | String c s' => if Ascii.eqb c "." then Some s' else None
                    | EmptyString => None
                    end
               else Some s) with
        | None => None
        | Some s =>
            let '(n, c, ok) := dtoi s in
            if negb ok || (0xFF <? n) then None
            else if (1 <? c)%nat && head_is "0" s
            then None (* Reject non-zero components with leading zeroes. *)
            else parseIPv4_loop fuel' (S i) (string_drop c s) (<[i := byte n]> p)
        end
  end.

(** Parse IPv4 address (d.d.d.d). *)
Definition parseIPv4 (s : string) : IP :=
  match parseIPv4_loop 4 0 s [0; 0; 0; 0] with
  | Some (EmptyString, [a; b; c; d]) => IPv4 a b c d
  | _ => []
  end.

(** [CIDRMask(ones, bits)]: the loop fills byte [i] of the mask, [n] being
    the number of one bits still to place. *)
Fixpoint CIDRMask_loop (l : nat) (n : Z) : IPMask :=
  match l with
  | O => []
  | S l' =>
      if 8 <=? n then 0xff :: CIDRMask_loop l' (n - 8)
      else byte (Z.lnot (Z.shiftr 0xff n)) :: CIDRMask_loop l' 0
  end.

Definition CIDRMask (ones bits : Z) : IPMask :=
  if negb (bits =? 8 * IPv4len) && negb (bits =? 8 * IPv6len) then []
  else if (ones <? 0) || (bits <? ones) then []
  else CIDRMask_loop (Z.to_nat (bits / 8)) ones.

(** [ip.Mask(mask)] *)
Definition IP_Mask (ip : IP) (mask : IPMask) : IP :=
  let mask :=
    if (len mask =? IPv6len) && (len ip =? IPv4len) && allFF (take 12 mask)
    then drop 12 mask else mask in
  let ip :=
    if (len mask =? IPv4len) && (len ip =? IPv6len)
       && bool_decide (take 12 ip = v4InV6Prefix)
    then drop 12 ip else ip in
  if negb (len ip =? len mask) then []
  else zip_with Z.land ip mask.

Record IPNet := mkIPNet { IPNet_IP : IP; IPNet_Mask : IPMask }.

(** The inner loops of [simpleMaskLength] on the first byte that is not
    0xff: count its leading one bits (a byte has eight). *)
Fixpoint leading_ones (fuel : nat) (v : Z) (n : Z) : Z * Z :=
  match fuel with
  | O => (v, n)
  | S fuel' =>
      if negb (Z.land v 0x80 =? 0) then leading_ones fuel' (byte (Z.shiftl v 1)) (n + 1)
      else (v, n)
  end.

Fixpoint simpleMaskLength_loop (mask : IPMask) (n : Z) : Z :=
  match mask with
  | [] => n
  | v :: rest =>
      if v =? 0xff then simpleMaskLength_loop rest (n + 8)
      else
        let '(v', n') := leading_ones 8 v n in
        if negb (v' =? 0) then -1
        else if negb (forallb (Z.eqb 0) rest) then -1
        else n'
  end.

(** If mask is a sequence of 1 bits followed by 0 bits, return the number
    of 1 bits; otherwise -1. *)
Definition simpleMaskLength (mask : IPMask) : Z := simpleMaskLength_loop mask 0.

(** [networkNumberAndMask(n)]; [None] is the result [(nil, nil)]. *)
Definition networkNumberAndMask (n : IPNet) : option (IP * IPMask) :=
  let ip := To4 (IPNet_IP n) in
  match (if bool_decide (ip = [])
         then if negb (len (IPNet_IP n) =? IPv6len) then None else Some (IPNet_IP n)
         else Some ip) with
  | None => None
  | Some ip =>
      let m := IPNet_Mask n in
      if len m =? IPv4len then
        if negb (len ip =? IPv4len) then None else Some (ip, m)
      else if len m =? IPv6len then
        if len ip =? IPv4len then Some (ip, drop 12 m) else Some (ip, m)
      else None
  end.

(** [uitoa(val)]: the digits are written from the end of a 20 byte buffer,
    which [fuel] counts; [buf] is the part of the buffer already filled. *)
Fixpoint uitoa_loop (fuel : nat) (val : Z) (buf : string) : string :=
  match fuel with
  | O => buf
  | S fuel' =>
      if 10 <=? val then
        let q := val / 10 in
        uitoa_loop fuel' q (String (char_of (byte_of "0" + val - q * 10)) buf)
      else String (char_of (byte_of "0" + val)) buf
  end.

Definition uitoa (val : Z) : string :=
  if val =? 0 then "0" else uitoa_loop 20 val "".

Definition hexDigit : string := "0123456789abcdef".

Definition hexChar (n : Z) : ascii :=
  match String.get (Z.to_nat n) hexDigit with Some c => c | None => "0"%char end.

(** [hexString(b)] *)
Fixpoint hexString (b : list Z) : string :=
  match b with
  | [] => ""
  | tn :: rest => String (hexChar (Z.shiftr tn 4)) (String (hexChar (Z.land tn 0xf)) (hexString rest))
  end.

(** [m.String()] *)
Definition IPMask_String (m : IPMask) : string :=
  if len m =? 0 then "<nil>" else hexString m.

(** The parts of package net that handle IPv6 text, which the tracker's
    ranges (32 bit addresses) never reach: the IPv6 literal parser and the
    rendering of an [IP] that is not an IPv4 address. *)
Class GoNetIPv6 := {
  parseIPv6 : string -> IP;
  IP_String_v6 : IP -> string
}.

Section Net.
Context `{GoNetIPv6}.

(** [ip.String()] *)
Definition IP_String (ip : IP) : string :=
  if len ip =? 0 then "<nil>"
  else
    match To4 ip with
    | [a; b; c; d] => uitoa a +:+ "." +:+ uitoa b +:+ "." +:+ uitoa c +:+ "." +:+ uitoa d
    | _ => IP_String_v6 ip
    end.

(** [n.String()] *)
Definition IPNet_String (n : IPNet) : string :=
  match networkNumberAndMask n with
  | None => "<nil>"
  | Some (nn, m) =>
      let l := simpleMaskLength m in
      if l =? -1 then IP_String nn +:+ "/" +:+ IPMask_String m
      else IP_String nn +:+ "/" +:+ uitoa l
  end.

End Net.

(** ** Errors

    A Go [error] is observed through its [Error()] text. The tracker meets
    three kinds: the [*net.ParseError] of package net, the errors made by
    [fmt.Errorf], and whatever the EC2 API or netlink return. *)

Inductive error : Type :=
| ParseError (Type_ Text : string)
| errorString (s : string)
| backendError (msg : string).

Definition Error (e : error) : string :=
  match e with
  | ParseError ty text => "invalid " +:+ ty +:+ ": " +:+ text
  | errorString s => s
  | backendError msg => msg
  end.

(** [fmt.Errorf(format, err)] for a format [prefix ++ "%s"]. *)
Definition Errorf (prefix : string) (err : error) : error :=
  errorString (prefix +:+ Error err).

Section ParseCIDR.
Context `{GoNetIPv6}.

(** [net.ParseCIDR(s)]: the IP, the network, or the error. *)
Definition ParseCIDR (s : string) : error + (IP * IPNet) :=
  let i := byteIndex s "/" in
  if i <? 0 then inl (ParseError "CIDR address" s)
  else
    let addr := string_take (Z.to_nat i) s in
    let mask := string_drop (Z.to_nat (i + 1)) s in
    let ip4 := parseIPv4 addr in
    let '(iplen, ip) :=
      if bool_decide (ip4 = []) then (IPv6len, parseIPv6 addr) else (IPv4len, ip4) in
    let '(n, i, ok) := dtoi mask in
    if bool_decide (ip = []) || negb ok || negb (i =? String.length mask)%nat
       || (n <? 0) || (8 * iplen <? n)
    then inl (ParseError "CIDR address" s)
    else
      let m := CIDRMask n (8 * iplen) in
      inr (ip, {| IPNet_IP := IP_Mask ip m; IPNet_Mask := m |}).

(** awsvpc.go, [parseCIDR]: the network of [net.ParseCIDR] with its IP
    replaced by the address as it was written. *)
Definition parseCIDR (cidr : string) : error + IPNet :=
  match ParseCIDR cidr with
  | inl err => inl err
  | inr (ip, ipnet) => inr {| IPNet_IP := ip; IPNet_Mask := IPNet_Mask ipnet |}
  end.

End ParseCIDR.

(** ** Package address of the repository (net/address) *)

(** Modelled from the spec: package address is in another directory of the
    repository than the tracker. Of an address range the spec says that it
    is an IP network given as (base address, prefix length), with a start
    address and an end address derived from them, an exact equality (same
    start and end), an order by end address, and a canonical string form
    used as the key of the routes, as in 10.0.0.0/24. *)

(** Modelled from the spec: an address, a 32 bit unsigned integer. *)
Definition Address := Z.

(** Modelled from the spec: address.CIDR, a base address and a prefix
    length. *)
Record CIDR := mkCIDR { Addr : Address; PrefixLen : Z }.

#[global] Instance CIDR_eq_dec : EqDecision CIDR.
Proof. solve_decision. Defined.

#[global] Instance CIDR_countable : Countable CIDR.
Proof.
  refine (inj_countable' (fun c => (Addr c, PrefixLen c)) (fun p => mkCIDR p.1 p.2) _).
  by intros [].
Defined.

(** Modelled from the spec: the number of addresses of the block. *)
Definition CIDR_Size (c : CIDR) : Z := 2 ^ (32 - PrefixLen c).

(** Modelled from the spec: the start address, the base address itself. *)
Definition CIDR_Start (c : CIDR) : Address := Addr c.

(** Modelled from the spec: [cidr.End()], the end address, taken as the
    last address of the block. *)
Definition CIDR_End (c : CIDR) : Address := Addr c + CIDR_Size c - 1.

(** Modelled from the spec: [a.Equal(b)], same start and same end. *)
Definition CIDR_Equal (a b : CIDR) : bool :=
  (CIDR_Start a =? CIDR_Start b) && (CIDR_End a =? CIDR_End b).

(** Modelled from the spec: the four bytes of an address, most significant
    first. *)
Definition IP4 (addr : Address) : IP :=
  [byte (Z.shiftr addr 24); byte (Z.shiftr addr 16); byte (Z.shiftr addr 8); byte addr].

(** The decimal digits of a non-negative integer, most significant first,
    written as [uitoa] writes them but with room for any number of digits. *)
Definition decimal (val : Z) : string :=
  if val =? 0 then "0" else uitoa_loop (S (Z.to_nat (Z.log2 val))) val "".

(** The verb [%d] of package fmt. *)
Definition fmt_d (z : Z) : string :=
  if z <? 0 then "-" +:+ decimal (- z) else decimal z.

(** Modelled from the spec: the dotted form of an address. *)
Definition Address_String (addr : Address) : string :=
  match IP4 addr with
  | [a; b; c; d] => uitoa a +:+ "." +:+ uitoa b +:+ "." +:+ uitoa c +:+ "." +:+ uitoa d
  | _ => ""
  end.

(** Modelled from the spec: [cidr.String()], the canonical string form of a
    range. *)
Definition CIDR_String (c : CIDR) : string :=
  Address_String (Addr c) +:+ "/" +:+ fmt_d (PrefixLen c).

(** The range strings of a range set. *)
Definition range_strings (l : list CIDR) : gset string :=
  list_to_set (CIDR_String <$> l).

(** Modelled from the spec: what the address package must provide to the
    tracker besides CIDRs: the ranges the caller owns and their conversion
    to CIDRs, of which the spec says nothing and nothing is assumed. *)
Class AddressRanges := {
  Range : Type;
  NewCIDRs : list Range -> list CIDR
}.

(** Well-formed CIDRs: a prefix length of 0 to 32 and a block inside the
    32 bit address space. *)
Definition CIDR_wf (c : CIDR) : bool :=
  (0 <=? PrefixLen c) && (PrefixLen c <=? 32) && (0 <=? Addr c) && (CIDR_End c <? 2 ^ 32).

Definition Overlaps (a b : CIDR) : bool :=
  negb ((CIDR_End a <? CIDR_Start b) || (CIDR_End b <? CIDR_Start a)).

(** A range set is sorted ascending by end address ... *)
Fixpoint sorted_by_end (l : list CIDR) : bool :=
  match l with
  | [] => true
  | a :: l' => forallb (fun b => CIDR_End a <=? CIDR_End b) l' && sorted_by_end l'
  end.

(** ... and no two of its entries overlap (or are duplicates). *)
Fixpoint non_overlapping (l : list CIDR) : bool :=
  match l with
  | [] => true
  | a :: l' => forallb (fun b => negb (Overlaps a b)) l' && non_overlapping l'
  end.

Definition valid_range_set (l : list CIDR) : bool :=
  forallb CIDR_wf l && sorted_by_end l && non_overlapping l.

(** ** awsvpc.go: removeCommon *)

(** The variables of the merge loop. *)
Record merge_state := mkMerge {
  m_i : nat; m_j : nat;
  m_newA : list CIDR; m_newB : list CIDR
}.

(** One iteration of [for i < len(a) && j < len(b)]; [None] when the loop
    condition fails. *)
Definition removeCommon_step (a b : list CIDR) (s : merge_state) : option merge_state :=
  match a !! m_i s, b !! m_j s with
  | Some ai, Some bj =>
      Some (if CIDR_Equal ai bj
            then mkMerge (S (m_i s)) (S (m_j s)) (m_newA s) (m_newB s)
            else if CIDR_End ai <? CIDR_End bj
            then mkMerge (S (m_i s)) (m_j s) (m_newA s ++ [ai]) (m_newB s)
            else mkMerge (m_i s) (S (m_j s)) (m_newA s) (m_newB s ++ [bj]))
  | _, _ => None
  end.

Fixpoint removeCommon_loop (fuel : nat) (a b : list CIDR) (s : merge_state) : merge_state :=
  match fuel with
  | O => s
  | S fuel' =>
      match removeCommon_step a b s with
      | Some s' => removeCommon_loop fuel' a b s'
      | None => s
      end
  end.

(** removeCommon filters out CIDR ranges which are contained in both a and
    b slices. Every iteration advances [i] or [j], so [len(a) + len(b)]
    iterations are enough. *)
Definition removeCommon (a b : list CIDR) : list CIDR * list CIDR :=
  let s := removeCommon_loop (length a + length b) a b (mkMerge 0 0 [] []) in
  (m_newA s ++ drop (m_i s) a, m_newB s ++ drop (m_j s) b).

(** ** The two routing backends *)

(** [ec2.CreateRouteInput] and [ec2.DeleteRouteInput], with the fields the
    tracker fills in. *)
Record CreateRouteInput := mkCreateRouteInput {
  cr_RouteTableId : string;
  cr_InstanceId : string;
  cr_DestinationCidrBlock : string
}.

Record DeleteRouteInput := mkDeleteRouteInput {
  dr_RouteTableId : string;
  dr_DestinationCidrBlock : string
}.

(** [netlink.SCOPE_LINK] *)
Definition SCOPE_LINK : Z := 253.

(** [netlink.Route] *)
Record Route := mkRoute {
  LinkIndex : Z;
  Dst : IPNet;
  Scope : Z
}.

(** The world outside the tracker: the VPC route table behind an EC2
    client and the kernel's route table behind netlink. Each call may
    change the world and succeeds or returns an error. *)
Class Backends := {
  World : Type;
  EC2 : Type;
  ec2_CreateRoute : EC2 -> CreateRouteInput -> World -> option error * World;
  ec2_DeleteRoute : EC2 -> DeleteRouteInput -> World -> option error * World;
  netlink_RouteAdd : Route -> World -> option error * World;
  netlink_RouteDel : Route -> World -> option error * World
}.

(** The operations of the backend interface, keyed by range string. *)
Inductive Op : Type :=
| AddCloudRoute (rangeString : string)
| AddHostRoute (rangeString : string)
| RemoveCloudRoute (rangeString : string)
| RemoveHostRoute (rangeString : string).

#[global] Instance Op_eq_dec : EqDecision Op.
Proof. solve_decision. Defined.

Definition is_add (o : Op) : bool :=
  match o with AddCloudRoute _ | AddHostRoute _ => true | _ => false end.

Definition is_host (o : Op) : bool :=
  match o with AddHostRoute _ | RemoveHostRoute _ => true | _ => false end.

Definition op_range (o : Op) : string :=
  match o with
  | AddCloudRoute r | AddHostRoute r | RemoveCloudRoute r | RemoveHostRoute r => r
  end.

(** The name under which [HandleUpdate] reports the failure of an
    operation. *)
Definition failed_method (o : Op) : string :=
  match o with
  | AddCloudRoute _ => "createVPCRoutes"
  | AddHostRoute _ => "createHostRoute"
  | RemoveCloudRoute _ => "deleteVPCRoute"
  | RemoveHostRoute _ => "deleteHostRoute"
  end.

Section Tracker.
Context `{GoNetIPv6} `{Backends} `{AddressRanges}.

Record AWSVPCTracker := mkTracker {
  ec2 : EC2;
  instanceID : string;   (* EC2 Instance ID *)
  routeTableID : string; (* VPC Route Table ID *)
  linkIndex : Z          (* The weave bridge link index *)
}.

(** A call that leaves the process. *)
Inductive Call : Type :=
| EC2_CreateRoute (client : EC2) (input : CreateRouteInput)
| Netlink_RouteAdd (route : Route)
| EC2_DeleteRoute (client : EC2) (input : DeleteRouteInput)
| Netlink_RouteDel (route : Route).

Definition perform (c : Call) (w : World) : option error * World :=
  match c with
  | EC2_CreateRoute cl input => ec2_CreateRoute cl input w
  | Netlink_RouteAdd r => netlink_RouteAdd r w
  | EC2_DeleteRoute cl input => ec2_DeleteRoute cl input w
  | Netlink_RouteDel r => netlink_RouteDel r w
  end.

(** The backend operation a call stands for: the table, the direction
    and the range string of the route. *)
Definition op_of_call (c : Call) : Op :=
  match c with
  | EC2_CreateRoute _ input => AddCloudRoute (cr_DestinationCidrBlock input)
  | Netlink_RouteAdd r => AddHostRoute (IPNet_String (Dst r))
  | EC2_DeleteRoute _ input => RemoveCloudRoute (dr_DestinationCidrBlock input)
  | Netlink_RouteDel r => RemoveHostRoute (IPNet_String (Dst r))
  end.

(** The state [HandleUpdate] runs in: the tracker behind the receiver
    [t], the world, and the calls made so far with their outcomes. *)
Record State := mkState {
  tracker : AWSVPCTracker;
  world : World;
  calls : list (Call * option error)
}.

Definition M (A : Type) : Type := State -> A * State.

#[local] Instance M_ret : MRet M := fun _ a s => (a, s).
#[local] Instance M_bind : MBind M :=
  fun _ _ f m s => let '(a, s') := m s in f a s'.

Definition gets {A} (f : State -> A) : M A := fun s => (f s, s).

Definition call (c : Call) : M (option error) := fun s =>
  let '(err, w) := perform c (world s) in
  (err, {| tracker := tracker s; world := w; calls := calls s ++ [(c, err)] |}).

(** [common.Log.Debugf]: the logger is outside the state. *)
Definition debugf (msg : string) : M unit := mret tt.

Definition createVPCRoute (cidr : string) : M (option error) :=
  t ← gets tracker;
  let route := {| cr_RouteTableId := routeTableID t;
                  cr_InstanceId := instanceID t;
                  cr_DestinationCidrBlock := cidr |} in
  call (EC2_CreateRoute (ec2 t) route).

Definition createHostRoute (cidr : string) : M (option error) :=
  match parseCIDR cidr with
  | inl err => mret (Some err)
  | inr dst =>
      t ← gets tracker;
      let route := {| LinkIndex := linkIndex t; Dst := dst; Scope := SCOPE_LINK |} in
      call (Netlink_RouteAdd route)
  end.

Definition deleteVPCRoute (cidr : string) : M (option error) :=
  t ← gets tracker;
  let route := {| dr_RouteTableId := routeTableID t;
                  dr_DestinationCidrBlock := cidr |} in
  call (EC2_DeleteRoute (ec2 t) route).

Definition deleteHostRoute (cidr : string) : M (option error) :=
  match parseCIDR cidr with
  | inl err => mret (Some err)
  | inr dst =>
      t ← gets tracker;
      let route := {| LinkIndex := linkIndex t; Dst := dst; Scope := SCOPE_LINK |} in
      call (Netlink_RouteDel route)
  end.

(** Add new entries: the loop [for _, cidr := range curr]. *)
Fixpoint addEntries (curr : list CIDR) : M (option error) :=
  match curr with
  | [] => mret None
  | cidr :: rest =>
      let cidrStr := CIDR_String cidr in
      _ ← debugf ("adding route " +:+ cidrStr);
      err ← createVPCRoute cidrStr;
      match err with
      | Some err => mret (Some (Errorf "createVPCRoutes failed: " err))
      | None =>
          err ← createHostRoute cidrStr;
          match err with
          | Some err => mret (Some (Errorf "createHostRoute failed: " err))
          | None => addEntries rest
          end
      end
  end.

(** Remove obsolete entries: the loop [for _, cidr := range prev]. *)
Fixpoint removeEntries (prev : list CIDR) : M (option error) :=
  match prev with
  | [] => mret None
  | cidr :: rest =>
      let cidrStr := CIDR_String cidr in
      _ ← debugf ("removing " +:+ cidrStr +:+ " route");
      err ← deleteVPCRoute cidrStr;
      match err with
      | Some err => mret (Some (Errorf "deleteVPCRoute failed: " err))
      | None =>
          err ← deleteHostRoute cidrStr;
          match err with
          | Some err => mret (Some (Errorf "deleteHostRoute failed: " err))
          | None => removeEntries rest
          end
      end
  end.

(** HandleUpdate method updates the AWS VPC and the host route tables. *)
Definition HandleUpdate (prevRanges currRanges : list Range) : M (option error) :=
  _ ← debugf "replacing entries";
  let '(prev, curr) := removeCommon (NewCIDRs prevRanges) (NewCIDRs currRanges) in
  err ← addEntries curr;
  match err with
  | Some err => mret (Some err)
  | None => removeEntries prev
  end.

(** The canonical sequence of operations for a diff: the additions, cloud
    table before host table, then the removals. *)
Definition add_ops (c : CIDR) : list Op :=
  [AddCloudRoute (CIDR_String c); AddHostRoute (CIDR_String c)].
Definition remove_ops (c : CIDR) : list Op :=
  [RemoveCloudRoute (CIDR_String c); RemoveHostRoute (CIDR_String c)].
Definition canonical_ops (onlyPrev onlyCurr : list CIDR) : list Op :=
  (onlyCurr ≫= add_ops) ++ (onlyPrev ≫= remove_ops).

(** The calls [HandleUpdate] makes from a state, and the operations they
    stand for. *)
Definition issued (prevRanges currRanges : list Range) (s : State)
  : list (Call * option error) :=
  drop (length (calls s)) (calls (HandleUpdate prevRanges currRanges s).2).

Definition issued_ops (prevRanges currRanges : list Range) (s : State) : list Op :=
  (op_of_call ∘ fst) <$> issued prevRanges currRanges s.

Definition succeeded (x : Call * option error) : Prop := x.2 = None.

Definition ops_of (l : list (Call * option error)) : list Op :=
  (op_of_call ∘ fst) <$> l.

(** How a run that makes the calls [new] and returns [err] relates to the
    operations [canon] it was to perform: the calls follow [canon]; the
    run succeeds when all of them are made and succeed; it fails right
    after a call that failed, or before a host operation whose range
    string does not parse, with the error of that step under the name of
    the method. *)
Definition run_shape (canon : list Op) (new : list (Call * option error))
    (err : option error) : Prop :=
  ops_of new `prefix_of` canon ∧
  match err with
  | None => ops_of new = canon ∧ Forall succeeded new
  | Some e =>
      (∃ pre c u, new = pre ++ [(c, Some u)] ∧ Forall succeeded pre ∧
         e = Errorf (failed_method (op_of_call c) +:+ " failed: ") u)
      ∨ (Forall succeeded new ∧
         ∃ op, canon !! length new = Some op ∧ is_host op = true ∧
           e = Errorf (failed_method op +:+ " failed: ")
                      (ParseError "CIDR address" (op_range op)))
  end.

(** The claim that the error of a failed update tells the range: some
    way of reading the range off the error is right for every failing
    call of every run. *)
Definition error_identifies_range : Prop :=
  ∃ range_of : error -> string,
    ∀ prevRanges currRanges s c u e,
      (c, Some u) ∈ issued prevRanges currRanges s →
      (HandleUpdate prevRanges currRanges s).1 = Some e →
      range_of e = op_range (op_of_call c).

End Tracker.

(** ** Reference definitions for the statements *)

(** The merge of [removeCommon] as a recursion on what is left of the two
    slices, [a[i:]] and [b[j:]]. *)
Fixpoint merge_diff (a : list CIDR) : list CIDR -> list CIDR * list CIDR :=
  fix inner (b : list CIDR) : list CIDR * list CIDR :=
    match a, b with
    | [], _ => ([], b)
    | _, [] => (a, [])
    | x :: a', y :: b' =>
        if CIDR_Equal x y then merge_diff a' b'
        else if CIDR_End x <? CIDR_End y
        then let r := merge_diff a' b in (x :: r.1, r.2)
        else let r := inner b' in (r.1, y :: r.2)
    end.

(** End addresses that increase strictly along a list, as they do in a
    valid range set. *)
Fixpoint ends_increasing (l : list CIDR) : Prop :=
  match l with
  | [] => True
  | x :: l' => Forall (fun y => CIDR_End x < CIDR_End y) l' ∧ ends_increasing l'
  end.

(** The canonical strings: those of the CIDRs with a prefix length of 0
    to 32. *)
Definition canonical_string (s : string) : Prop :=
  ∃ c, 0 <= PrefixLen c <= 32 ∧ s = CIDR_String c.

(** Decimal text: a string of digits and the number it denotes, read from
    the left starting from [n]. *)
Fixpoint all_digits (s : string) : bool :=
  match s with
  | EmptyString => true
  | String c s' => is_digit c && all_digits s'
  end.

Fixpoint dval (s : string) (n : Z) : Z :=
  match s with
  | EmptyString => n
  | String c s' => dval s' (n * 10 + (byte_of c - byte_of "0"))
  end.

(** Where a number ends: at the end of the text or before a byte that is
    not a digit. *)
Definition no_digit_head (s : string) : bool :=
  match s with
  | EmptyString => true
  | String c _ => negb (is_digit c)
  end.

Definition decimal_text (s : string) (n : Z) : Prop :=
  s ≠ "" ∧ all_digits s = true ∧ dval s 0 = n.

Fixpoint has_byte (c : ascii) (s : string) : bool :=
  match s with
  | EmptyString => false
  | String c' s' => Ascii.eqb c' c || has_byte c s'
  end.

(** An octet in decimal: a number of at most 255 written without a
    leading zero, zero itself being the one digit 0. *)
Definition octet_text (d : string) (n : Z) : Prop :=
  decimal_text d n ∧ n <= 255 ∧ (head_is "0" d = true → d = "0").

(** The text of an IPv4 address: four octets with dots between them. *)
Definition dotted_quad (s : string) (a b c d : Z) : Prop :=
  ∃ d1 d2 d3 d4,
    s = d1 +:+ "." +:+ d2 +:+ "." +:+ d3 +:+ "." +:+ d4 ∧
    octet_text d1 a ∧ octet_text d2 b ∧ octet_text d3 c ∧ octet_text d4 d.

(** The text of an IPv4 network: a dotted quad with the octets [a], [b],
    [c], [d], a slash, and the prefix length [n] of at most 32 in decimal
    (a prefix length may be written with leading zeros). *)
Definition ipv4_network_text (s : string) (a b c d n : Z) : Prop :=
  ∃ addr m,
    s = addr +:+ "/" +:+ m ∧ dotted_quad addr a b c d ∧ decimal_text m n ∧ n <= 32.


Section ValidText.
Context `{GoNetIPv6}.



End ValidText.

(** ** Backends whose tables can be observed *)

(** The two route tables as sets of range strings: a successful add
    inserts the route's range string into its table, a successful remove
    deletes it, and neither touches the other table. *)
Class TableView `{GoNetIPv6} `{Backends} := {
  cloud_table : World -> gset string;
  host_table : World -> gset string
}.

Class TableLaws `{TableView} : Prop := {
  CreateRoute_inserts : ∀ cl input w w',
    ec2_CreateRoute cl input w = (None, w') →
    cloud_table w' = {[cr_DestinationCidrBlock input]} ∪ cloud_table w ∧
    host_table w' = host_table w;
  RouteAdd_inserts : ∀ r w w',
    netlink_RouteAdd r w = (None, w') →
    host_table w' = {[IPNet_String (Dst r)]} ∪ host_table w ∧
    cloud_table w' = cloud_table w;
  DeleteRoute_deletes : ∀ cl input w w',
    ec2_DeleteRoute cl input w = (None, w') →
    cloud_table w' = cloud_table w ∖ {[dr_DestinationCidrBlock input]} ∧
    host_table w' = host_table w;
  RouteDel_deletes : ∀ r w w',
    netlink_RouteDel r w = (None, w') →
    host_table w' = host_table w ∖ {[IPNet_String (Dst r)]} ∧
    cloud_table w' = cloud_table w
}.

(** ** Instances to run the definitions on *)

(** Package net restricted to IPv4 text. *)
Definition ipv4_only : GoNetIPv6 :=
  {| parseIPv6 := fun _ => []; IP_String_v6 := fun _ => "?" |}.

(** Ranges that are CIDR blocks already. *)
Definition cidr_ranges : AddressRanges :=
  {| Range := CIDR; NewCIDRs := fun l => l |}.

(** Two tables held as sets, with a script of outcomes: each call takes
    the next outcome of the script; it fails with that error and changes
    nothing, or succeeds and updates its table. When the script is used up
    every call succeeds. *)
Record tables := mkTables {
  t_cloud : gset string;
  t_host : gset string;
  t_script : list (option error)
}.

Definition scripted (w : tables) (apply : tables -> tables) : option error * tables :=
  match t_script w with
  | Some e :: rest => (Some e, mkTables (t_cloud w) (t_host w) rest)
  | None :: rest => (None, apply (mkTables (t_cloud w) (t_host w) rest))
  | [] => (None, apply w)
  end.

Definition scripted_tables : Backends :=
  {| World := tables;
     EC2 := unit;
     ec2_CreateRoute := fun _ input w =>
       scripted w (fun w => mkTables ({[cr_DestinationCidrBlock input]} ∪ t_cloud w) (t_host w) (t_script w));
     ec2_DeleteRoute := fun _ input w =>
       scripted w (fun w => mkTables (t_cloud w ∖ {[dr_DestinationCidrBlock input]}) (t_host w) (t_script w));
     netlink_RouteAdd := fun r w =>
       scripted w (fun w => mkTables (t_cloud w) ({[@IPNet_String ipv4_only (Dst r)]} ∪ t_host w) (t_script w));
     netlink_RouteDel := fun r w =>
       scripted w (fun w => mkTables (t_cloud w) (t_host w ∖ {[@IPNet_String ipv4_only (Dst r)]}) (t_script w)) |}.

Definition scripted_view : @TableView ipv4_only scripted_tables :=
  @Build_TableView ipv4_only scripted_tables t_cloud t_host.

(** A tracker and some ranges to run on. *)
Definition tracker0 : @AWSVPCTracker scripted_tables :=
  @mkTracker scripted_tables tt "i-0123" "rtb-1" 7.

Definition state0 (cloud host : gset string) (script : list (option error))
  : @State scripted_tables :=
  @mkState scripted_tables tracker0 (mkTables cloud host script) [].

(** [HandleUpdate] on these instances. *)
Definition run_update (prev curr : list CIDR) (st : @State scripted_tables)
  : option error * @State scripted_tables :=
  @HandleUpdate ipv4_only scripted_tables cidr_ranges prev curr st.

Definition run_issued (prev curr : list CIDR) (st : @State scripted_tables)
  : list (@Call scripted_tables * option error) :=
  @issued ipv4_only scripted_tables cidr_ranges prev curr st.

Definition run_issued_ops (prev curr : list CIDR) (st : @State scripted_tables) : list Op :=
  @issued_ops ipv4_only scripted_tables cidr_ranges prev curr st.

Definition net_10_0_0 : CIDR := mkCIDR 167772160 24.   (* 10.0.0.0/24 *)
Definition net_10_0_1 : CIDR := mkCIDR 167772416 24.   (* 10.0.1.0/24 *)
Definition net_10_0_2 : CIDR := mkCIDR 167772672 24.   (* 10.0.2.0/24 *)
Definition net_10_0_0_128 : CIDR := mkCIDR 167772288 25. (* 10.0.0.128/25 *)

(** ** Further definitions for the statements about the remaining code *)

(** An IPv4 network with its prefix length written without leading zeros. *)
Definition ipv4_network_canonical (a b c d n : Z) : string :=
  (uitoa a +:+ "." +:+ uitoa b +:+ "." +:+ uitoa c +:+ "." +:+ uitoa d) +:+ "/" +:+ uitoa n.

Section TrackerCalls.
Context `{GoNetIPv6} `{Backends}.

(** A call made with the fields of the tracker [t]: an EC2 call goes
    through the tracker's client and names its route table, and to create
    a route also its instance, as the target; a netlink call is for a
    link-scoped route on the tracker's link. *)
Definition call_of_tracker (t : AWSVPCTracker) (c : Call) : Prop :=
  match c with
  | EC2_CreateRoute cl input =>
      cl = ec2 t ∧ cr_RouteTableId input = routeTableID t ∧
      cr_InstanceId input = instanceID t
  | EC2_DeleteRoute cl input =>
      cl = ec2 t ∧ dr_RouteTableId input = routeTableID t
  | Netlink_RouteAdd r | Netlink_RouteDel r =>
      LinkIndex r = linkIndex t ∧ Scope r = SCOPE_LINK
  end.

(** Prefix lengths an IPv4 CIDR can have. *)
Definition prefix_lengths_ok (l : list CIDR) : Prop :=
  Forall (fun c => 0 <= PrefixLen c <= 32) l.

End TrackerCalls.

(** A backend call that fails leaves both tables as they were. *)
Class TableFailLaws `{TableView} : Prop := {
  failed_call_keeps_tables : ∀ (c : Call) w e w',
    perform c w = (Some e, w') →
    cloud_table w' = cloud_table w ∧ host_table w' = host_table w
}.

(** ** awsvpc.go: NewAWSVPCTracker and detectRouteTableID *)

(** The types of the EC2 API the two functions read, as the SDK declares
    them: a [*string] is an [option string], nil being [None]; a slice of
    pointers is a list of options, and a response is a pointer too. *)
Record ec2_Instance := mkInstance {
  VpcId : option string;
  SubnetId : option string
}.

Record ec2_Reservation := mkReservation {
  Instances : list (option ec2_Instance)
}.

Record ec2_DescribeInstancesInput := mkDescribeInstancesInput {
  InstanceIds : list (option string)
}.

Record ec2_DescribeInstancesOutput := mkDescribeInstancesOutput {
  Reservations : list (option ec2_Reservation)
}.

Record ec2_Filter := mkFilter {
  f_Name : option string;
  f_Values : list (option string)
}.

Record ec2_DescribeRouteTablesInput := mkDescribeRouteTablesInput {
  Filters : list ec2_Filter
}.

Record ec2_RouteTable := mkRouteTable {
  RouteTableId : option string
}.

Record ec2_DescribeRouteTablesOutput := mkDescribeRouteTablesOutput {
  RouteTables : list (option ec2_RouteTable)
}.

(** [netlink.Link], as far as [Attrs().Index]: [Attrs()] returns a
    pointer. *)
Record netlink_LinkAttrs := mkLinkAttrs {
  Index : Z
}.

Record netlink_Link := mkLink {
  Attrs : option netlink_LinkAttrs
}.

(** What the two functions ask of their surroundings: the instance
    metadata service, the EC2 API and netlink. Each question is answered
    by the world, which may change with it; an answer is an error or,
    with a nil error, the value returned, which for a pointer or an
    interface may be nil. [ec2_New] is the client for a region, and
    [WeaveBridgeName] the constant of package net of the repository. *)
Class Discovery `{Backends} := {
  meta_GetMetadata : string -> World -> (error + string) * World;
  meta_Region : World -> (error + string) * World;
  ec2_New : string -> EC2;
  ec2_DescribeInstances :
    EC2 -> ec2_DescribeInstancesInput -> World ->
    (error + option ec2_DescribeInstancesOutput) * World;
  ec2_DescribeRouteTables :
    EC2 -> ec2_DescribeRouteTablesInput -> World ->
    (error + option ec2_DescribeRouteTablesOutput) * World;
  netlink_LinkByName : string -> World -> (error + option netlink_Link) * World;
  WeaveBridgeName : string
}.

(** A Go function returns, or panics on a nil pointer. *)
Inductive result (A : Type) : Type :=
| Panicked
| Returned (a : A).
Arguments Panicked {A}.
Arguments Returned {A} a.

(** [instancesResp.Reservations[0].Instances[0]] behind the test
    [len(instancesResp.Reservations) == 0 ||
     len(instancesResp.Reservations[0].Instances) == 0]: no instance when
    the test holds, and a panic on a nil response, a nil first reservation
    or a nil first instance. *)
Definition first_instance (resp : option ec2_DescribeInstancesOutput)
  : result (option ec2_Instance) :=
  match resp with
  | None => Panicked
  | Some resp =>
      match Reservations resp with
      | [] => Returned None
      | None :: _ => Panicked
      | Some r :: _ =>
          match Instances r with
          | [] => Returned None
          | None :: _ => Panicked
          | Some inst :: _ => Returned (Some inst)
          end
      end
  end.

(** [tablesResp.RouteTables[0].RouteTableId] behind the test
    [len(tablesResp.RouteTables) != 0]: no table when the test fails, and
    a panic on a nil response or a nil first table. *)
Definition first_table (resp : option ec2_DescribeRouteTablesOutput)
  : result (option (option string)) :=
  match resp with
  | None => Panicked
  | Some resp =>
      match RouteTables resp with
      | [] => Returned None
      | None :: _ => Panicked
      | Some tbl :: _ => Returned (Some (RouteTableId tbl))
      end
  end.

(** [link.Attrs().Index] *)
Definition link_index (link : option netlink_Link) : result Z :=
  match link with
  | None => Panicked
  | Some link =>
      match Attrs link with
      | None => Panicked
      | Some attrs => Returned (Index attrs)
      end
  end.

Section NewTracker.
Context `{Backends} `{!Discovery}.

(** A question asked, with its answer. *)
Inductive Query : Type :=
| GetMetadata (p : string) (r : error + string)
| Region (r : error + string)
| DescribeInstances (client : EC2) (input : ec2_DescribeInstancesInput)
    (r : error + option ec2_DescribeInstancesOutput)
| DescribeRouteTables (client : EC2) (input : ec2_DescribeRouteTablesInput)
    (r : error + option ec2_DescribeRouteTablesOutput)
| LinkByName (name : string) (r : error + option netlink_Link).

(** The state the construction runs in: the world and the questions asked
    so far. *)
Record DState := mkDState {
  d_world : World;
  d_log : list Query
}.

Definition DM (A : Type) : Type := DState -> A * DState.

#[local] Instance DM_ret : MRet DM := fun _ a s => (a, s).
#[local] Instance DM_bind : MBind DM :=
  fun _ _ f m s => let '(a, s') := m s in f a s'.

Definition ask {A} (f : World -> A * World) (q : A -> Query) : DM A := fun s =>
  let '(r, w) := f (d_world s) in
  (r, {| d_world := w; d_log := d_log s ++ [q r] |}).

(** [common.Log.Infof]: the logger is outside the state. *)
Definition infof (msg : string) : DM unit := mret tt.

(** The two [tablesParams] of [detectRouteTableID]. *)
Definition subnet_tables (subnetID : option string) : ec2_DescribeRouteTablesInput :=
  {| Filters := [ {| f_Name := Some "association.subnet-id"; f_Values := [subnetID] |} ] |}.

Definition main_tables (vpcID : option string) : ec2_DescribeRouteTablesInput :=
  {| Filters := [ {| f_Name := Some "association.main"; f_Values := [Some "true"] |};
                  {| f_Name := Some "vpc-id"; f_Values := [vpcID] |} ] |}.

(** detectRouteTableID detects AWS VPC Route Table ID of the given tracker
    instance. *)
Definition detectRouteTableID (t : AWSVPCTracker) : DM (result (error + option string)) :=
  let instancesParams := {| InstanceIds := [Some (instanceID t)] |} in
  r ← ask (ec2_DescribeInstances (ec2 t) instancesParams)
          (DescribeInstances (ec2 t) instancesParams);
  match r with
  | inl err => mret (Returned (inl (Errorf "DescribeInstances failed: " err)))
  | inr instancesResp =>
      match first_instance instancesResp with
      | Panicked => mret Panicked
      | Returned None =>
          mret (Returned (inl (errorString
                  ("cannot find " +:+ instanceID t +:+ " instance within reservations"))))
      | Returned (Some inst) =>
          let vpcID := VpcId inst in
          let subnetID := SubnetId inst in
          (* First try to find a routing table associated with the subnet of
             the instance *)
          let tablesParams := subnet_tables subnetID in
          r ← ask (ec2_DescribeRouteTables (ec2 t) tablesParams)
                  (DescribeRouteTables (ec2 t) tablesParams);
          match r with
          | inl err => mret (Returned (inl (Errorf "DescribeRouteTables failed: " err)))
          | inr tablesResp =>
              match first_table tablesResp with
              | Panicked => mret Panicked
              | Returned (Some id) => mret (Returned (inr id))
              | Returned None =>
                  (* Fallback to the default routing table *)
                  let tablesParams := main_tables vpcID in
                  r ← ask (ec2_DescribeRouteTables (ec2 t) tablesParams)
                          (DescribeRouteTables (ec2 t) tablesParams);
                  match r with
                  | inl err =>
                      mret (Returned (inl (Errorf "DescribeRouteTables failed: " err)))
                  | inr tablesResp =>
                      match first_table tablesResp with
                      | Panicked => mret Panicked
                      | Returned (Some id) => mret (Returned (inr id))
                      | Returned None =>
                          mret (Returned (inl (errorString
                                  ("cannot find routetable for " +:+ instanceID t
                                   +:+ " instance"))))
                      end
                  end
              end
          end
      end
  end.

(** The byte of a double quote. *)
Definition quote : string := String (ascii_of_nat 34) EmptyString.

(** NewAWSVPCTracker creates and initialises AWS VPC based tracker. The
    tracker [t] is built field by field; on the way it has the zero value
    in the fields not yet set. *)
Definition NewAWSVPCTracker : DM (result (error + AWSVPCTracker)) :=
  (* Detect region and instance id *)
  r ← ask (meta_GetMetadata "instance-id") (GetMetadata "instance-id");
  match r with
  | inl err => mret (Returned (inl (Errorf "cannot detect instance-id: " err)))
  | inr t_instanceID =>
      r ← ask meta_Region Region;
      match r with
      | inl err => mret (Returned (inl (Errorf "cannot detect region: " err)))
      | inr region =>
          let t_ec2 := ec2_New region in
          r ← detectRouteTableID {| ec2 := t_ec2; instanceID := t_instanceID;
                                    routeTableID := EmptyString; linkIndex := 0 |};
          match r with
          | Panicked => mret Panicked
          | Returned (inl err) => mret (Returned (inl err))
          | Returned (inr None) => mret Panicked (* [*routeTableID] of a nil pointer *)
          | Returned (inr (Some t_routeTableID)) =>
              (* Detect Weave bridge link index *)
              r ← ask (netlink_LinkByName WeaveBridgeName) (LinkByName WeaveBridgeName);
              match r with
              | inl err =>
                  mret (Returned (inl (errorString
                          ("cannot find " +:+ quote +:+ WeaveBridgeName +:+ quote
                           +:+ " interface: " +:+ Error err))))
              | inr link =>
                  match link_index link with
                  | Panicked => mret Panicked
                  | Returned index =>
                      let t := {| ec2 := t_ec2; instanceID := t_instanceID;
                                  routeTableID := t_routeTableID;
                                  linkIndex := index |} in
                      _ ← infof ("AWSVPC has been initialized on " +:+ instanceID t
                                 +:+ " instance for " +:+ routeTableID t
                                 +:+ " route table at " +:+ region +:+ " region");
                      mret (Returned (inr t))
                  end
              end
          end
      end
  end.

(** String method of the tracker. *)
Definition AWSVPCTracker_String (t : AWSVPCTracker) : string := "awsvpc".

(** The questions a run asks from a state. *)
Definition asked {A} (m : DM A) (s : DState) : list Query :=
  drop (length (d_log s)) (d_log (m s).2).

(** The questions of [detectRouteTableID] in full: the instance, then
    the tables of its subnet, then the main table of its VPC. *)
Definition is_DescribeInstances (t : AWSVPCTracker) (q : Query) : Prop :=
  ∃ r, q = DescribeInstances (ec2 t) {| InstanceIds := [Some (instanceID t)] |} r.

Definition is_DescribeRouteTables (t : AWSVPCTracker) (q : Query) : Prop :=
  ∃ input r, q = DescribeRouteTables (ec2 t) input r.


End NewTracker.

(** An account to run the construction on: one instance in subnet-1 of
    vpc-1; no route table is associated with a subnet unless [subnet_table]
    names one, and the main table of the VPC is rtb-1. *)
Definition scripted_discovery (subnet_table : list (option ec2_RouteTable))
  : @Discovery scripted_tables :=
  @Build_Discovery scripted_tables
    (fun p w => (if String.eqb p "instance-id" then inr "i-0123"
                 else inl (backendError "NotFound"), w))
    (fun w => (inr "eu-west-1", w))
    (fun _ => tt)
    (fun _ input w =>
       (inr (Some {| Reservations :=
                 [ Some {| Instances := [ Some {| VpcId := Some "vpc-1";
                                                  SubnetId := Some "subnet-1" |} ] |} ] |}),
        w))
    (fun _ input w =>
       (inr (Some (match Filters input with
                   | [f] => {| RouteTables := subnet_table |}
                   | _ => {| RouteTables := [ Some {| RouteTableId := Some "rtb-1" |} ] |}
                   end)), w))
    (fun name w => (inr (Some {| Attrs := Some {| Index := 7 |} |}), w))
    "weave".

Definition dstate0 : @DState scripted_tables :=
  @mkDState scripted_tables (mkTables ∅ ∅ []) [].

(** * Decimal text: printing and reading numbers *)

Lemma append_assoc (s t u : string) : (s +:+ t) +:+ u = s +:+ (t +:+ u).
Proof. induction s as [|c s IH]; simpl; congruence. Qed.

Lemma append_nil_r (s : string) : s +:+ "" = s.
Proof. induction s as [|c s IH]; simpl; congruence. Qed.

Lemma length_append (s t : string) :
  String.length (s +:+ t) = (String.length s + String.length t)%nat.
Proof. induction s as [|c s IH]; simpl; congruence. Qed.

Lemma string_drop_append (s t : string) : string_drop (String.length s) (s +:+ t) = t.
Proof. induction s as [|c s IH]; simpl; done. Qed.

Lemma string_take_append (s t : string) : string_take (String.length s) (s +:+ t) = s.
Proof. induction s as [|c s IH]; simpl; congruence. Qed.


Lemma byte_of_range c : 0 <= byte_of c < 256.
Proof.
  unfold byte_of. pose proof (N_ascii_bounded c) as Hb. lia.
Qed.

Lemma byte_of_char_of b : 0 <= b < 256 → byte_of (char_of b) = b.
Proof.
  intros Hb. unfold byte_of, char_of.
  rewrite N_ascii_embedding by lia. lia.
Qed.

Lemma is_digit_spec c : is_digit c = true ↔ 48 <= byte_of c <= 57.
Proof.
  unfold is_digit. change (byte_of "0") with 48. change (byte_of "9") with 57.
  rewrite andb_true_iff, !Z.leb_le. done.
Qed.

Lemma is_digit_char_of d : 0 <= d <= 9 → is_digit (char_of (48 + d)) = true.
Proof.
  intros Hd. apply is_digit_spec. rewrite byte_of_char_of; lia.
Qed.

Lemma all_digits_app s t :
  all_digits (s +:+ t) = all_digits s && all_digits t.
Proof. induction s as [|c s IH]; simpl; [done | by rewrite IH, andb_assoc]. Qed.

Lemma dval_app s t n : dval (s +:+ t) n = dval t (dval s n).
Proof. revert n. induction s as [|c s IH]; intros n; simpl; [done | by rewrite IH]. Qed.

Lemma dval_lower s n : all_digits s = true → 0 <= n → n <= dval s n.
Proof.
  revert n. induction s as [|c s IH]; intros n Hs Hn; simpl in *; [lia|].
  apply andb_true_iff in Hs as [Hc Hs]. apply is_digit_spec in Hc.
  change (byte_of "0") with 48.
  etrans; [|apply IH; [done | lia]]. lia.
Qed.

Lemma dtoi_loop_digits ds rest n i :
  all_digits ds = true → no_digit_head rest = true → 0 <= n → dval ds n < big →
  dtoi_loop (ds +:+ rest) n i = (dval ds n, (i + String.length ds)%nat, true).
Proof.
  revert n i. induction ds as [|c ds IH]; intros n i Hds Hrest Hn Hv; simpl in *.
  - rewrite Nat.add_0_r. destruct rest as [|c r]; simpl in *; [done|].
    by destruct (is_digit c).
  - apply andb_true_iff in Hds as [Hc Hds]. rewrite Hc.
    pose proof (proj1 (is_digit_spec c) Hc) as Hr.
    change (byte_of "0") with 48 in *.
    assert (n * 10 + (byte_of c - 48) <= dval ds (n * 10 + (byte_of c - 48)))
      by (apply dval_lower; [done | lia]).
    destruct (Z.leb_spec big (n * 10 + (byte_of c - 48))); [lia|].
    rewrite IH by (try done; lia). do 2 f_equal. lia.
Qed.

Lemma dtoi_loop_overflow ds rest n i :
  all_digits ds = true → 0 <= n < big → big <= dval ds n →
  (dtoi_loop (ds +:+ rest) n i).2 = false.
Proof.
  revert n i. induction ds as [|c ds IH]; intros n i Hds Hn Hv; simpl in *; [lia|].
  apply andb_true_iff in Hds as [Hc Hds]. rewrite Hc.
  pose proof (proj1 (is_digit_spec c) Hc) as Hr.
  change (byte_of "0") with 48 in *.
  destruct (Z.leb_spec big (n * 10 + (byte_of c - 48))); [done|].
  apply IH; [done | lia | done].
Qed.

Lemma dtoi_decimal ds rest n :
  decimal_text ds n → no_digit_head rest = true → n < big →
  dtoi (ds +:+ rest) = (n, String.length ds, true).
Proof.
  intros (Hne & Hds & Hv) Hrest Hn. unfold dtoi.
  rewrite dtoi_loop_digits by (try done; lia). simpl. rewrite Hv.
  destruct ds; [done|]. done.
Qed.

Lemma dtoi_decimal_overflow ds rest n :
  decimal_text ds n → big <= n → (dtoi (ds +:+ rest)).2 = false.
Proof.
  intros (Hne & Hds & Hv) Hn. unfold dtoi.
  pose proof (dtoi_loop_overflow ds rest 0 0 Hds) as Ho.
  destruct (dtoi_loop (ds +:+ rest) 0 0) as [[m i] ok]. simpl in Ho.
  rewrite Ho; [done | by compute | lia].
Qed.

(** The digits [uitoa_loop] writes in front of the buffer. *)
Lemma uitoa_loop_spec fuel val buf :
  (0 < fuel)%nat → 0 <= val < 10 ^ Z.of_nat fuel →
  ∃ ds, uitoa_loop fuel val buf = ds +:+ buf ∧ ds ≠ "" ∧ all_digits ds = true ∧
        ∀ n, dval ds n = n * 10 ^ Z.of_nat (String.length ds) + val.
Proof.
  revert val buf. induction fuel as [|fuel IH]; intros val buf Hf Hval; [lia|].
  simpl. change (byte_of "0") with 48.
  destruct (Z.leb_spec 10 val) as [Hge|Hlt].
  - assert (0 < fuel)%nat as Hf'.
    { destruct fuel; [|lia]. change (10 ^ Z.of_nat 1) with 10 in Hval. lia. }
    assert (0 <= val / 10 < 10 ^ Z.of_nat fuel) as Hq.
    { split; [apply Z.div_pos; lia|].
      apply Z.div_lt_upper_bound; [lia|].
      rewrite Nat2Z.inj_succ, Z.pow_succ_r in Hval by lia. lia. }
    set (d := val - val / 10 * 10).
    assert (0 <= d <= 9) as Hd.
    { unfold d. pose proof (Z.mod_pos_bound val 10). pose proof (Z.div_mod val 10). lia. }
    replace (48 + val - val / 10 * 10) with (48 + d) by (unfold d; lia).
    destruct (IH (val / 10) (String (char_of (48 + d)) buf) Hf' Hq)
      as (ds & Heq & Hne & Hds & Hv).
    exists (ds +:+ String (char_of (48 + d)) "").
    rewrite Heq. split_and!; [by rewrite append_assoc | by destruct ds | |].
    + rewrite all_digits_app, Hds. simpl.
      rewrite (is_digit_char_of d) by done. done.
    + intros n. rewrite dval_app, Hv. simpl. change (byte_of "0") with 48.
      rewrite byte_of_char_of by lia.
      rewrite length_append. simpl.
      rewrite Nat2Z.inj_add. change (Z.of_nat 1) with 1.
      rewrite Z.pow_add_r by lia. unfold d. lia.
  - exists (String (char_of (48 + val)) ""). simpl. split_and!; try done.
    + rewrite (is_digit_char_of val) by lia. done.
    + intros n. change (byte_of "0") with 48. rewrite byte_of_char_of by lia.
      change (Z.of_nat 1) with 1. lia.
Qed.

Lemma decimal_text_value ds n : decimal_text ds n → 0 <= n.
Proof.
  intros (_ & Hds & <-). by apply dval_lower.
Qed.

Lemma uitoa_decimal_text val : 0 <= val < 10 ^ 20 → decimal_text (uitoa val) val.
Proof.
  intros Hval. unfold uitoa. destruct (Z.eqb_spec val 0) as [->|Hnz].
  - by split_and!.
  - destruct (uitoa_loop_spec 20 val "") as (ds & Heq & Hne & Hds & Hv); [lia | done |].
    rewrite Heq, append_nil_r. split_and!; [done | done |]. rewrite Hv. lia.
Qed.

Lemma decimal_decimal_text val : 0 <= val → decimal_text (decimal val) val.
Proof.
  intros Hval. unfold decimal. destruct (Z.eqb_spec val 0) as [->|Hnz].
  - by split_and!.
  - destruct (uitoa_loop_spec (S (Z.to_nat (Z.log2 val))) val "")
      as (ds & Heq & Hne & Hds & Hv); [lia | |].
    + split; [lia|]. pose proof (Z.log2_nonneg val).
      rewrite Nat2Z.inj_succ, Z2Nat.id by done.
      eapply Z.lt_le_trans; [apply Z.log2_spec; lia|].
      apply Z.pow_le_mono_l. lia.
    + rewrite Heq, append_nil_r. split_and!; [done | done |]. rewrite Hv. lia.
Qed.

(** * Reading an address and a prefix length *)

Lemma has_byte_append c s t : has_byte c (s +:+ t) = has_byte c s || has_byte c t.
Proof. induction s as [|c' s IH]; simpl; [done | by rewrite IH, orb_assoc]. Qed.

Lemma has_byte_digits c s : all_digits s = true → is_digit c = false → has_byte c s = false.
Proof.
  intros Hs Hc. induction s as [|c' s IH]; simpl in *; [done|].
  apply andb_true_iff in Hs as [Hc' Hs]. rewrite IH by done.
  destruct (Ascii.eqb_spec c' c) as [->|]; [congruence | done].
Qed.

Lemma byteIndex_nonneg_or s c : byteIndex s c = -1 ∨ 0 <= byteIndex s c.
Proof.
  induction s as [|c' s IH]; simpl; [by left|].
  destruct (Ascii.eqb c' c); [right; lia|].
  destruct (Z.ltb_spec (byteIndex s c) 0); [by left | right; lia].
Qed.

Lemma byteIndex_append s c t :
  has_byte c s = false → byteIndex (s +:+ String c t) c = Z.of_nat (String.length s).
Proof.
  intros Hs. induction s as [|c' s IH]; simpl in *.
  - by rewrite Ascii.eqb_refl.
  - apply orb_false_iff in Hs as [Hc Hs]. rewrite Hc, IH by done.
    destruct (Z.ltb_spec (Z.of_nat (String.length s)) 0); lia.
Qed.

Lemma byteIndex_absent s c : has_byte c s = false → byteIndex s c = -1.
Proof.
  intros Hs. induction s as [|c' s IH]; simpl in *; [done|].
  apply orb_false_iff in Hs as [Hc Hs]. by rewrite Hc, IH.
Qed.


Lemma byte_small n : 0 <= n <= 255 → byte n = n.
Proof. intros Hn. unfold byte. apply Z.mod_small. lia. Qed.

Lemma decimal_text_length ds n : decimal_text ds n → (String.length ds =? 0)%nat = false.
Proof. intros (Hne & _). by destruct ds. Qed.

(** A property checked on every number from 0 to [k]. *)
Lemma range_check (k : nat) (P : Z → bool) :
  forallb P (Z.of_nat <$> seq 0 (S k)) = true → ∀ p, 0 <= p <= Z.of_nat k → P p = true.
Proof.
  intros Hall p Hp. rewrite forallb_forall in Hall. apply Hall.
  apply list_elem_of_In, list_elem_of_fmap. exists (Z.to_nat p). split; [lia|].
  apply elem_of_seq. lia.
Qed.

(** An octet is not refused for a leading zero. *)
Lemma octet_text_kept ds n rest :
  octet_text ds n → (1 <? String.length ds)%nat && head_is "0" (ds +:+ rest) = false.
Proof.
  intros ((Hne & _) & _ & Hz). destruct ds as [|c ds]; [done|]. simpl in *.
  destruct (Ascii.eqb c "0"); [|by rewrite andb_false_r].
  specialize (Hz eq_refl). by injection Hz as _ ->.
Qed.

(** One round of the loop of [parseIPv4] on an octet in decimal. *)
Lemma parseIPv4_loop_first fuel ds n rest p :
  octet_text ds n → no_digit_head rest = true →
  parseIPv4_loop (S fuel) 0 (ds +:+ rest) p
  = parseIPv4_loop fuel 1 rest (<[0%nat := n]> p).
Proof.
  intros Hoct Hrest. pose proof (octet_text_kept ds n rest Hoct) as Hkept.
  destruct Hoct as (Hds & Hn & _). pose proof (decimal_text_value _ _ Hds) as Hpos.
  cbn [parseIPv4_loop]. rewrite length_append.
  pose proof (decimal_text_length _ _ Hds) as Hlen.
  apply Nat.eqb_neq in Hlen.
  destruct (Nat.eqb_spec (String.length ds + String.length rest) 0); [lia|].
  change (0 <? 0)%nat with false. cbv iota.
  rewrite (dtoi_decimal ds rest n) by (try done; unfold big; lia).
  destruct (Z.ltb_spec 255 n); [lia|]. simpl negb. simpl orb. cbv iota.
  rewrite Hkept. by rewrite string_drop_append, byte_small by lia.
Qed.

Lemma parseIPv4_loop_next fuel i ds n rest p :
  octet_text ds n → no_digit_head rest = true →
  parseIPv4_loop (S fuel) (S i) ("." +:+ ds +:+ rest) p
  = parseIPv4_loop fuel (S (S i)) rest (<[S i := n]> p).
Proof.
  intros Hoct Hrest. pose proof (octet_text_kept ds n rest Hoct) as Hkept.
  destruct Hoct as (Hds & Hn & _). pose proof (decimal_text_value _ _ Hds) as Hpos.
  cbn [parseIPv4_loop]. simpl String.length. simpl Nat.eqb.
  change (0 <? S i)%nat with true. simpl String.append at 1. cbv beta iota.
  rewrite Ascii.eqb_refl.
  rewrite (dtoi_decimal ds rest n) by (try done; unfold big; lia).
  destruct (Z.ltb_spec 255 n); [lia|]. simpl negb. simpl orb. cbv iota.
  rewrite Hkept. by rewrite string_drop_append, byte_small by lia.
Qed.

Lemma parseIPv4_dotted d1 d2 d3 d4 n1 n2 n3 n4 :
  octet_text d1 n1 → octet_text d2 n2 → octet_text d3 n3 → octet_text d4 n4 →
  parseIPv4 (d1 +:+ "." +:+ d2 +:+ "." +:+ d3 +:+ "." +:+ d4) = IPv4 n1 n2 n3 n4.
Proof.
  intros H1 H2 H3 H4. unfold parseIPv4.
  rewrite parseIPv4_loop_first with (n := n1) by done.
  rewrite parseIPv4_loop_next with (n := n2) by done.
  rewrite parseIPv4_loop_next with (n := n3) by done.
  rewrite <- (append_nil_r d4).
  rewrite parseIPv4_loop_next with (n := n4) by done.
  done.
Qed.

(** A property checked on every prefix length from 0 to 32. *)
Lemma prefix_range_check (P : Z → bool) :
  forallb P (Z.of_nat <$> seq 0 33) = true → ∀ p, 0 <= p <= 32 → P p = true.
Proof.
  intros Hall p Hp. rewrite forallb_forall in Hall. apply Hall.
  apply list_elem_of_In, list_elem_of_fmap. exists (Z.to_nat p). split; [lia|].
  apply elem_of_seq. lia.
Qed.

Lemma CIDRMask_facts p :
  0 <= p <= 32 →
  simpleMaskLength (CIDRMask p 32) = p ∧ len (CIDRMask p 32) = 4 ∧ uitoa p = decimal p.
Proof.
  intros Hp.
  pose proof (prefix_range_check
    (fun p => (simpleMaskLength (CIDRMask p 32) =? p) && (len (CIDRMask p 32) =? 4)
              && bool_decide (uitoa p = decimal p))) as Hc.
  specialize (Hc ltac:(vm_compute; reflexivity) p Hp). simpl in Hc.
  apply andb_true_iff in Hc as [Hc H3]. apply andb_true_iff in Hc as [H1 H2].
  apply bool_decide_eq_true in H3. split_and!; [lia | lia | done].
Qed.

Lemma IP4_octets addr :
  ∃ a b c d, IP4 addr = [a; b; c; d] ∧
    0 <= a <= 255 ∧ 0 <= b <= 255 ∧ 0 <= c <= 255 ∧ 0 <= d <= 255.
Proof.
  unfold IP4, byte. do 4 eexists. split; [done|].
  pose proof (Z.mod_pos_bound (addr ≫ 24) 256).
  pose proof (Z.mod_pos_bound (addr ≫ 16) 256).
  pose proof (Z.mod_pos_bound (addr ≫ 8) 256).
  pose proof (Z.mod_pos_bound addr 256). lia.
Qed.

Lemma uitoa_octet b : 0 <= b <= 255 → octet_text (uitoa b) b.
Proof.
  intros Hb. split_and!; [apply uitoa_decimal_text; lia | lia |].
  pose proof (range_check 255
    (fun p => implb (head_is "0" (uitoa p)) (String.eqb (uitoa p) "0"))) as Hc.
  specialize (Hc ltac:(vm_compute; reflexivity) b ltac:(lia)). simpl in Hc.
  intros Hz. rewrite Hz in Hc. by apply String.eqb_eq in Hc.
Qed.

Lemma has_byte_decimal_text c ds n :
  decimal_text ds n → is_digit c = false → has_byte c ds = false.
Proof. intros (_ & Hds & _) Hc. by apply has_byte_digits. Qed.

Lemma Address_String_parse addr a b c d :
  IP4 addr = [a; b; c; d] →
  0 <= a <= 255 → 0 <= b <= 255 → 0 <= c <= 255 → 0 <= d <= 255 →
  parseIPv4 (Address_String addr) = IPv4 a b c d ∧
  has_byte "/" (Address_String addr) = false.
Proof.
  intros Heq Ha Hb Hc Hd. unfold Address_String. rewrite Heq.
  pose proof (uitoa_octet a Ha) as Oa. pose proof (uitoa_octet b Hb) as Ob.
  pose proof (uitoa_octet c Hc) as Oc. pose proof (uitoa_octet d Hd) as Od.
  pose proof (proj1 Oa) as Ta. pose proof (proj1 Ob) as Tb.
  pose proof (proj1 Oc) as Tc. pose proof (proj1 Od) as Td.
  split.
  - by apply parseIPv4_dotted.
  - rewrite !has_byte_append.
    rewrite (has_byte_decimal_text "/" _ _ Ta), (has_byte_decimal_text "/" _ _ Tb),
      (has_byte_decimal_text "/" _ _ Tc), (has_byte_decimal_text "/" _ _ Td) by done.
    done.
Qed.

Lemma string_drop_S_append s c t :
  string_drop (S (String.length s)) (s +:+ String c t) = t.
Proof. induction s as [|c' s IH]; simpl; done. Qed.

Lemma dtoi_fmt_d p :
  dtoi (fmt_d p) =
    if (0 <=? p) && (p <? big) then (p, String.length (fmt_d p), true)
    else ((dtoi (fmt_d p)).1, false).
Proof.
  unfold fmt_d. destruct (Z.ltb_spec p 0) as [Hneg|Hpos].
  - destruct (Z.leb_spec 0 p); [lia|]. done.
  - destruct (Z.leb_spec 0 p); [|lia]. simpl andb.
    pose proof (decimal_decimal_text p Hpos) as Hd.
    destruct (Z.ltb_spec p big) as [Hlt|Hge].
    + rewrite <- (append_nil_r (decimal p)) at 1.
      by rewrite (dtoi_decimal _ "" p Hd).
    + pose proof (dtoi_decimal_overflow _ "" p Hd Hge) as Ho.
      rewrite append_nil_r in Ho.
      destruct (dtoi (decimal p)) as [x ok]. simpl in *. by subst.
Qed.

Section RoundTrip.
Context `{GoNetIPv6}.

(** What [net.ParseCIDR] makes of the canonical string of a CIDR. *)
Lemma ParseCIDR_canonical c a b c' d :
  IP4 (Addr c) = [a; b; c'; d] →
  0 <= a <= 255 → 0 <= b <= 255 → 0 <= c' <= 255 → 0 <= d <= 255 →
  ParseCIDR (CIDR_String c) =
    if (0 <=? PrefixLen c) && (PrefixLen c <=? 32)
    then let m := CIDRMask (PrefixLen c) 32 in
         inr (IPv4 a b c' d, {| IPNet_IP := IP_Mask (IPv4 a b c' d) m; IPNet_Mask := m |})
    else inl (ParseError "CIDR address" (CIDR_String c)).
Proof.
  intros Heq Ha Hb Hc Hd.
  destruct (Address_String_parse _ _ _ _ _ Heq Ha Hb Hc Hd) as [Hparse Hslash].
  set (A := Address_String (Addr c)) in *. set (M := fmt_d (PrefixLen c)).
  assert (CIDR_String c = A +:+ String "/" M) as Hs by reflexivity.
  assert (byteIndex (CIDR_String c) "/" = Z.of_nat (String.length A)) as Hidx
    by (by rewrite Hs, byteIndex_append).
  assert (string_take (Z.to_nat (Z.of_nat (String.length A))) (CIDR_String c) = A)
    as Htake by (by rewrite Hs, Nat2Z.id, string_take_append).
  assert (string_drop (Z.to_nat (Z.of_nat (String.length A) + 1)) (CIDR_String c) = M)
    as Hdrop.
  { rewrite Hs. replace (Z.to_nat (Z.of_nat (String.length A) + 1))
      with (S (String.length A)) by lia. apply string_drop_S_append. }
  unfold ParseCIDR. rewrite Hidx, Htake, Hdrop, Hparse. subst M.
  destruct (Z.ltb_spec (Z.of_nat (String.length A)) 0); [lia|].
  change (bool_decide (IPv4 a b c' d = [])) with false. cbv iota.
  rewrite dtoi_fmt_d.
  change (8 * IPv4len) with 32.
  destruct ((0 <=? PrefixLen c) && (PrefixLen c <? big)) eqn:Hin.
  - apply andb_true_iff in Hin as [Hp0%Z.leb_le Hpb%Z.ltb_lt].
    cbv beta iota. rewrite Nat.eqb_refl. simpl orb.
    destruct (Z.ltb_spec (PrefixLen c) 0); [lia|]. simpl orb.
    destruct (Z.leb_spec 0 (PrefixLen c)); [|lia]. simpl andb.
    destruct (Z.ltb_spec 32 (PrefixLen c)), (Z.leb_spec (PrefixLen c) 32); done || lia.
  - destruct (dtoi (fmt_d (PrefixLen c))) as [[n i] ok]. simpl.
    assert ((0 <=? PrefixLen c) && (PrefixLen c <=? 32) = false) as ->; [|done].
    apply andb_false_iff in Hin as [Hin%Z.leb_gt|Hin%Z.ltb_ge]; apply andb_false_iff.
    + left. apply Z.leb_gt. lia.
    + right. apply Z.leb_gt. unfold big in Hin. lia.
Qed.

(** The same through the tracker's [parseCIDR]. *)
Lemma parseCIDR_canonical c a b c' d :
  IP4 (Addr c) = [a; b; c'; d] →
  0 <= a <= 255 → 0 <= b <= 255 → 0 <= c' <= 255 → 0 <= d <= 255 →
  parseCIDR (CIDR_String c) =
    if (0 <=? PrefixLen c) && (PrefixLen c <=? 32)
    then inr {| IPNet_IP := IPv4 a b c' d; IPNet_Mask := CIDRMask (PrefixLen c) 32 |}
    else inl (ParseError "CIDR address" (CIDR_String c)).
Proof.
  intros. unfold parseCIDR. rewrite (ParseCIDR_canonical c a b c' d) by done.
  by destruct (_ && _).
Qed.

Lemma IPNet_String_canonical c a b c' d :
  IP4 (Addr c) = [a; b; c'; d] → 0 <= PrefixLen c <= 32 →
  IPNet_String {| IPNet_IP := IPv4 a b c' d; IPNet_Mask := CIDRMask (PrefixLen c) 32 |}
  = CIDR_String c.
Proof.
  intros Heq Hp. destruct (CIDRMask_facts _ Hp) as (Hlen & Hm & Hu).
  unfold IPNet_String, networkNumberAndMask. simpl IPNet_IP. simpl IPNet_Mask.
  change (To4 (IPv4 a b c' d)) with [a; b; c'; d].
  change (bool_decide ([a; b; c'; d] = [])) with false. cbv iota.
  rewrite Hm. change (4 =? IPv4len) with true. cbv iota.
  change (len [a; b; c'; d] =? IPv4len) with true. simpl negb. cbv iota.
  rewrite Hlen. destruct (Z.eqb_spec (PrefixLen c) (-1)); [lia|].
  unfold CIDR_String, Address_String, IP_String. rewrite Heq.
  change (len [a; b; c'; d] =? 0) with false. cbv iota.
  change (To4 [a; b; c'; d]) with [a; b; c'; d]. cbv iota.
  rewrite Hu. unfold fmt_d. destruct (Z.ltb_spec (PrefixLen c) 0); [lia|].
  by rewrite !append_assoc.
Qed.

(** Whenever the canonical string of a CIDR parses, the parsed network
    prints as that string. *)
Lemma parseCIDR_round_trip c n :
  parseCIDR (CIDR_String c) = inr n → IPNet_String n = CIDR_String c.
Proof.
  destruct (IP4_octets (Addr c)) as (a & b & c' & d & Heq & Ha & Hb & Hc & Hd).
  rewrite (parseCIDR_canonical c a b c' d) by done.
  destruct (Z.leb_spec 0 (PrefixLen c)), (Z.leb_spec (PrefixLen c) 32);
    simpl; intros [= <-].
  by apply IPNet_String_canonical.
Qed.

Lemma parseCIDR_wf c :
  0 <= PrefixLen c <= 32 → ∃ n, parseCIDR (CIDR_String c) = inr n.
Proof.
  intros Hp.
  destruct (IP4_octets (Addr c)) as (a & b & c' & d & Heq & Ha & Hb & Hc & Hd).
  rewrite (parseCIDR_canonical c a b c' d) by done.
  destruct (Z.leb_spec 0 (PrefixLen c)), (Z.leb_spec (PrefixLen c) 32); try lia.
  simpl. eauto.
Qed.

End RoundTrip.

(** * removeCommon *)

Lemma merge_diff_nil_l b : merge_diff [] b = ([], b).
Proof. by destruct b. Qed.

Lemma merge_diff_nil_r a : merge_diff a [] = (a, []).
Proof. by destruct a. Qed.

Lemma merge_diff_cons x a' y b' :
  merge_diff (x :: a') (y :: b') =
    if CIDR_Equal x y then merge_diff a' b'
    else if CIDR_End x <? CIDR_End y
    then ((x :: (merge_diff a' (y :: b')).1), (merge_diff a' (y :: b')).2)
    else ((merge_diff (x :: a') b').1, y :: (merge_diff (x :: a') b').2).
Proof. done. Qed.

(** The loop computes the merge of what is left of the two slices. *)
Lemma removeCommon_loop_merge fuel a b s :
  (length a - m_i s + (length b - m_j s) ≤ fuel)%nat →
  let s' := removeCommon_loop fuel a b s in
  (m_newA s' ++ drop (m_i s') a, m_newB s' ++ drop (m_j s') b)
  = (m_newA s ++ (merge_diff (drop (m_i s) a) (drop (m_j s) b)).1,
     m_newB s ++ (merge_diff (drop (m_i s) a) (drop (m_j s) b)).2).
Proof.
  revert s. induction fuel as [|fuel IH]; intros [i j nA nB] Hfuel; simpl in *.
  - rewrite (drop_ge a i), (drop_ge b j) by lia. reflexivity.
  - unfold removeCommon_step. simpl.
    destruct (a !! i) as [ai|] eqn:Hai; simpl.
    2:{ apply lookup_ge_None in Hai. rewrite (drop_ge a i) by lia.
        by rewrite merge_diff_nil_l. }
    destruct (b !! j) as [bj|] eqn:Hbj; simpl.
    2:{ apply lookup_ge_None in Hbj. rewrite (drop_ge b j) by lia.
        by rewrite merge_diff_nil_r. }
    pose proof (lookup_lt_Some _ _ _ Hai). pose proof (lookup_lt_Some _ _ _ Hbj).
    rewrite (drop_S a ai i Hai), (drop_S b bj j Hbj), merge_diff_cons.
    destruct (CIDR_Equal ai bj).
    + rewrite IH by (simpl; lia). done.
    + destruct (CIDR_End ai <? CIDR_End bj).
      * rewrite IH by (simpl; lia). cbn [m_i m_j m_newA m_newB fst snd].
        by rewrite (drop_S b bj j Hbj), <- app_assoc.
      * rewrite IH by (simpl; lia). cbn [m_i m_j m_newA m_newB fst snd].
        by rewrite (drop_S a ai i Hai), <- app_assoc.
Qed.

Lemma removeCommon_merge a b : removeCommon a b = merge_diff a b.
Proof.
  unfold removeCommon.
  pose proof (removeCommon_loop_merge (length a + length b) a b (mkMerge 0 0 [] [])) as Hl.
  simpl in Hl. rewrite Hl by lia. rewrite !drop_0. by destruct (merge_diff a b).
Qed.

(** When the loop of [removeCommon] stops, its condition is false: the
    iterations allowed are enough. *)
Lemma removeCommon_loop_done fuel a b s :
  (length a - m_i s + (length b - m_j s) ≤ fuel)%nat →
  removeCommon_step a b (removeCommon_loop fuel a b s) = None.
Proof.
  revert s. induction fuel as [|fuel IH]; intros [i j nA nB] Hfuel; simpl in *.
  - unfold removeCommon_step. simpl.
    destruct (a !! i) eqn:Hai; [|done]. destruct (b !! j) eqn:Hbj; [|done].
    apply lookup_lt_Some in Hai, Hbj. lia.
  - destruct (removeCommon_step a b (mkMerge i j nA nB)) as [s'|] eqn:Hstep; [|done].
    apply IH. unfold removeCommon_step in Hstep. simpl in Hstep.
    destruct (a !! i) eqn:Hai; [|done]. destruct (b !! j) eqn:Hbj; [|done].
    apply lookup_lt_Some in Hai, Hbj.
    injection Hstep as <-. repeat case_match; simpl; lia.
Qed.

Lemma CIDR_Equal_refl x : CIDR_Equal x x = true.
Proof. unfold CIDR_Equal. by rewrite !Z.eqb_refl. Qed.

Lemma CIDR_Size_pos c : 0 <= PrefixLen c <= 32 → 1 <= CIDR_Size c.
Proof.
  intros Hp. unfold CIDR_Size.
  change 1 with (2 ^ 0). apply Z.pow_le_mono_r; lia.
Qed.

Lemma CIDR_wf_prefix c : CIDR_wf c = true → 0 <= PrefixLen c <= 32.
Proof. unfold CIDR_wf. rewrite !andb_true_iff, !Z.leb_le. lia. Qed.

Lemma CIDR_Equal_eq x y :
  CIDR_wf x = true → CIDR_wf y = true → CIDR_Equal x y = true → x = y.
Proof.
  intros Hx%CIDR_wf_prefix Hy%CIDR_wf_prefix.
  unfold CIDR_Equal, CIDR_End, CIDR_Start, CIDR_Size.
  rewrite andb_true_iff, !Z.eqb_eq. intros [Hs He].
  destruct x as [ax px], y as [ay py]; simpl in *. subst ay.
  assert (2 ^ (32 - px) = 2 ^ (32 - py)) as Hpow by lia.
  apply Z.pow_inj_r in Hpow; [|lia..]. f_equal. lia.
Qed.

Lemma valid_range_set_cons x l :
  valid_range_set (x :: l) = true →
  CIDR_wf x = true ∧ Forall (fun y => CIDR_End x < CIDR_End y) l ∧ valid_range_set l = true.
Proof.
  unfold valid_range_set. simpl. rewrite !andb_true_iff.
  intros [[[Hx Hwf] [Hle Hs]] [Hno Hn]]. split_and!; try done.
  rewrite forallb_forall in Hle, Hno, Hwf. apply Forall_forall. intros y Hy.
  apply list_elem_of_In in Hy.
  specialize (Hle y Hy). specialize (Hno y Hy). specialize (Hwf y Hy).
  apply CIDR_wf_prefix in Hwf. pose proof (CIDR_Size_pos y Hwf).
  apply CIDR_wf_prefix in Hx. pose proof (CIDR_Size_pos x Hx).
  unfold Overlaps in Hno. rewrite negb_involutive, orb_true_iff, !Z.ltb_lt in Hno.
  apply Z.leb_le in Hle. unfold CIDR_End, CIDR_Start in *. lia.
Qed.

Lemma valid_range_set_wf l : valid_range_set l = true → Forall (fun c => CIDR_wf c = true) l.
Proof.
  induction l as [|x l IH]; intros Hv; [constructor|].
  apply valid_range_set_cons in Hv as (? & _ & ?). constructor; auto.
Qed.

Lemma valid_range_set_increasing l : valid_range_set l = true → ends_increasing l.
Proof.
  induction l as [|x l IH]; intros Hv; [done|].
  apply valid_range_set_cons in Hv as (? & ? & ?). split; auto.
Qed.

Lemma list_difference_cons (x : CIDR) l k :
  list_difference (x :: l) k =
    if decide (x ∈ k) then list_difference l k else x :: list_difference l k.
Proof. done. Qed.

Lemma list_difference_nil_r (l : list CIDR) : list_difference l [] = l.
Proof.
  induction l as [|x l IH]; [done|]. rewrite list_difference_cons.
  case_decide as Hx; [by apply elem_of_nil in Hx | by rewrite IH].
Qed.

Lemma list_difference_skip (l k : list CIDR) x :
  x ∉ l → list_difference l (x :: k) = list_difference l k.
Proof.
  intros Hx. induction l as [|y l IH]; [done|]. rewrite !list_difference_cons.
  apply not_elem_of_cons in Hx as [Hne Hx]. rewrite IH by done.
  destruct (decide (y ∈ x :: k)) as [Hin|Hin], (decide (y ∈ k)) as [Hin'|Hin'];
    try done.
  - apply elem_of_cons in Hin as [->|]; done.
  - exfalso. apply Hin. by right.
Qed.

Lemma ends_above_not_in x l :
  Forall (fun y => CIDR_End x < CIDR_End y) l → x ∉ l.
Proof.
  intros Hall Hx. rewrite Forall_forall in Hall. specialize (Hall x Hx). lia.
Qed.

(** On valid range sets the merge computes the two differences, each in
    the order of its input. *)
Lemma merge_diff_difference a b :
  Forall (fun c => CIDR_wf c = true) a → Forall (fun c => CIDR_wf c = true) b →
  ends_increasing a → ends_increasing b →
  merge_diff a b = (list_difference a b, list_difference b a).
Proof.
  intros Hwa. revert b. induction Hwa as [|x a' Hx Hwa IHa]; intros b Hwb Ha Hb.
  { by rewrite merge_diff_nil_l, list_difference_nil_r. }
  destruct Ha as [Hxa Ha].
  induction Hwb as [|y b' Hy Hwb IHb].
  { by rewrite merge_diff_nil_r, list_difference_nil_r. }
  destruct Hb as [Hyb Hb]. rewrite merge_diff_cons.
  pose proof (ends_above_not_in _ _ Hxa) as Hxa'.
  pose proof (ends_above_not_in _ _ Hyb) as Hyb'.
  destruct (CIDR_Equal x y) eqn:Heq.
  - apply CIDR_Equal_eq in Heq as <-; [|done..].
    rewrite IHa by done. rewrite !list_difference_cons.
    rewrite !decide_True by set_solver.
    by rewrite !list_difference_skip by done.
  - assert (x ≠ y) as Hne by (intros ->; by rewrite CIDR_Equal_refl in Heq).
    destruct (Z.ltb_spec (CIDR_End x) (CIDR_End y)) as [Hlt|Hge].
    + assert (x ∉ y :: b') as Hxb.
      { apply ends_above_not_in. constructor; [done|].
        eapply Forall_impl; [exact Hyb|]. simpl. intros. lia. }
      rewrite (IHa (y :: b') ltac:(by constructor) Ha (conj Hyb Hb)). cbn [fst snd].
      rewrite (list_difference_cons x a'), (decide_False (P := x ∈ y :: b')) by done.
      by rewrite (list_difference_skip (y :: b') a' x) by done.
    + assert (y ∉ x :: a') as Hya.
      { apply not_elem_of_cons. split; [done|]. apply ends_above_not_in.
        eapply Forall_impl; [exact Hxa|]. simpl. intros. lia. }
      rewrite IHb by done. cbn [fst snd].
      rewrite (list_difference_cons y b'), (decide_False (P := y ∈ x :: a')) by done.
      by rewrite (list_difference_skip (x :: a') b' y) by done.
Qed.

Lemma removeCommon_difference a b :
  valid_range_set a = true → valid_range_set b = true →
  removeCommon a b = (list_difference a b, list_difference b a).
Proof.
  intros Ha Hb. rewrite removeCommon_merge.
  apply merge_diff_difference;
    auto using valid_range_set_wf, valid_range_set_increasing.
Qed.

Lemma merge_diff_same a : merge_diff a a = ([], []).
Proof.
  induction a as [|x a IH]; [done|].
  by rewrite merge_diff_cons, CIDR_Equal_refl.
Qed.

(** ** The claims about removeCommon *)

(** C2. For sorted, non-overlapping range sets [A] and [B] the two outputs
    of [removeCommon A B] are disjoint from each other and from the
    intersection of [A] and [B]; [onlyPrev] together with the intersection
    is [A], and [onlyCurr] together with the intersection is [B]. The
    outputs are the ranges present in one set and absent from the other. *)
Theorem removeCommon_partition (A B : list CIDR) :
  valid_range_set A = true → valid_range_set B = true →
  let onlyPrev : gset CIDR := list_to_set (removeCommon A B).1 in
  let onlyCurr : gset CIDR := list_to_set (removeCommon A B).2 in
  let sA : gset CIDR := list_to_set A in
  let sB : gset CIDR := list_to_set B in
  onlyPrev ## onlyCurr ∧ onlyPrev ## sA ∩ sB ∧ onlyCurr ## sA ∩ sB ∧
  onlyPrev ∪ sA ∩ sB = sA ∧ onlyCurr ∪ sA ∩ sB = sB ∧
  onlyPrev = sA ∖ sB ∧ onlyCurr = sB ∖ sA.
Proof.
  intros HA HB. rewrite removeCommon_difference by done. simpl.
  assert (∀ x, x ∈ list_difference A B ↔ x ∈ A ∧ x ∉ B) as HP
    by (intros; apply list_elem_of_difference).
  assert (∀ x, x ∈ list_difference B A ↔ x ∈ B ∧ x ∉ A) as HC
    by (intros; apply list_elem_of_difference).
  assert (∀ x, Decision (x ∈ A)) by (intros; apply _).
  assert (∀ x, Decision (x ∈ B)) by (intros; apply _).
  split_and!.
  - intros x. rewrite !elem_of_list_to_set, HP, HC. tauto.
  - intros x. rewrite elem_of_intersection, !elem_of_list_to_set, HP. tauto.
  - intros x. rewrite elem_of_intersection, !elem_of_list_to_set, HC. tauto.
  - apply set_eq. intros x.
    rewrite elem_of_union, elem_of_intersection, !elem_of_list_to_set, HP.
    destruct (decide (x ∈ B)); tauto.
  - apply set_eq. intros x.
    rewrite elem_of_union, elem_of_intersection, !elem_of_list_to_set, HC.
    destruct (decide (x ∈ A)); tauto.
  - apply set_eq. intros x.
    rewrite elem_of_difference, !elem_of_list_to_set, HP. tauto.
  - apply set_eq. intros x.
    rewrite elem_of_difference, !elem_of_list_to_set, HC. tauto.
Qed.

Lemma removeCommon_partition_witness :
  valid_range_set [net_10_0_0; net_10_0_2] = true ∧
  valid_range_set [net_10_0_1; net_10_0_2] = true ∧
  (list_to_set (removeCommon [net_10_0_0; net_10_0_2] [net_10_0_1; net_10_0_2]).1 : gset CIDR)
    ## list_to_set (removeCommon [net_10_0_0; net_10_0_2] [net_10_0_1; net_10_0_2]).2.
Proof.
  split; [reflexivity|]. split; [reflexivity|].
  exact (proj1 (removeCommon_partition [net_10_0_0; net_10_0_2] [net_10_0_1; net_10_0_2]
                  eq_refl eq_refl)).
Defined.

(** The example of the spec: prev = [10.0.0.0/24, 10.0.2.0/24] and
    curr = [10.0.1.0/24, 10.0.2.0/24]. *)
Example removeCommon_example :
  removeCommon [net_10_0_0; net_10_0_2] [net_10_0_1; net_10_0_2]
  = ([net_10_0_0], [net_10_0_1]).
Proof. reflexivity. Qed.

(** C6. With an empty first slice [removeCommon] returns nothing and all of
    the second slice; with an empty second slice all of the first and
    nothing. *)
Theorem removeCommon_empty (A B : list CIDR) :
  removeCommon [] B = ([], B) ∧ removeCommon A [] = (A, []).
Proof.
  by rewrite !removeCommon_merge, merge_diff_nil_l, merge_diff_nil_r.
Qed.

(** C10. When the merge compares two unequal ranges [a[i]] and [b[j]] with
    the same end address, the iteration appends [b[j]] to the second output
    and advances [j] only: [i] and the first output are unchanged, so
    [a[i]] is still to be handled when [b[j]] has been emitted. *)
Theorem removeCommon_equal_ends (a b : list CIDR) (s : merge_state) (ai bj : CIDR) :
  a !! m_i s = Some ai → b !! m_j s = Some bj →
  CIDR_Equal ai bj = false → CIDR_End ai = CIDR_End bj →
  ∃ s', removeCommon_step a b s = Some s' ∧
    m_newB s' = m_newB s ++ [bj] ∧ m_j s' = S (m_j s) ∧
    m_i s' = m_i s ∧ m_newA s' = m_newA s ∧ a !! m_i s' = Some ai.
Proof.
  intros Hai Hbj Hne Hend. unfold removeCommon_step. rewrite Hai, Hbj, Hne.
  destruct (Z.ltb_spec (CIDR_End ai) (CIDR_End bj)); [lia|].
  eexists. split; [done|]. simpl. by rewrite Hai.
Qed.

Lemma removeCommon_equal_ends_witness :
  ∃ s', removeCommon_step [net_10_0_0] [net_10_0_0_128] (mkMerge 0 0 [] []) = Some s' ∧
    m_newB s' = [net_10_0_0_128] ∧ m_j s' = 1%nat ∧
    m_i s' = 0%nat ∧ m_newA s' = [] ∧ [net_10_0_0] !! m_i s' = Some net_10_0_0.
Proof.
  exact (removeCommon_equal_ends [net_10_0_0] [net_10_0_0_128] (mkMerge 0 0 [] [])
           net_10_0_0 net_10_0_0_128 eq_refl eq_refl eq_refl eq_refl).
Defined.

Example removeCommon_equal_ends_example :
  removeCommon [net_10_0_0] [net_10_0_0_128] = ([net_10_0_0], [net_10_0_0_128]).
Proof. reflexivity. Qed.

(** * HandleUpdate: the calls of a run *)

#[local] Arguments CIDR_String : simpl never.
#[local] Arguments parseCIDR : simpl never.
#[local] Arguments IPNet_String : simpl never.
#[local] Arguments removeCommon : simpl never.
#[local] Arguments Errorf : simpl never.

Section Runs.
Context `{GoNetIPv6} `{Backends} `{AddressRanges}.

Lemma parseCIDR_error s e : parseCIDR s = inl e → e = ParseError "CIDR address" s.
Proof.
  unfold parseCIDR, ParseCIDR.
  destruct (byteIndex s "/" <? 0); [congruence|].
  destruct (bool_decide _).
  - destruct (dtoi _) as [[n i] ok]. destruct (_ || _); [congruence | done].
  - destruct (dtoi _) as [[n i] ok]. destruct (_ || _); [congruence | done].
Qed.

Lemma tracker_call c (s : State) : tracker (call c s).2 = tracker s.
Proof. unfold call. by destruct (perform c (world s)). Qed.

Lemma calls_call c (s : State) : calls (call c s).2 = calls s ++ [(c, (call c s).1)].
Proof. unfold call. by destruct (perform c (world s)). Qed.

Lemma world_call c (s : State) : ((call c s).1, world (call c s).2) = perform c (world s).
Proof. unfold call. by destruct (perform c (world s)). Qed.

Lemma createVPCRoute_run str (s : State) :
  ∃ c, op_of_call c = AddCloudRoute str ∧ createVPCRoute str s = call c s ∧
       c = EC2_CreateRoute (ec2 (tracker s))
             (mkCreateRouteInput (routeTableID (tracker s)) (instanceID (tracker s)) str).
Proof. eexists. split_and!; [|reflexivity|reflexivity]. done. Qed.

Lemma deleteVPCRoute_run str (s : State) :
  ∃ c, op_of_call c = RemoveCloudRoute str ∧ deleteVPCRoute str s = call c s ∧
       c = EC2_DeleteRoute (ec2 (tracker s))
             (mkDeleteRouteInput (routeTableID (tracker s)) str).
Proof. eexists. split_and!; [|reflexivity|reflexivity]. done. Qed.

Lemma createHostRoute_run cidr (s : State) :
  (∃ c dst, op_of_call c = AddHostRoute (CIDR_String cidr) ∧
            createHostRoute (CIDR_String cidr) s = call c s ∧
            c = Netlink_RouteAdd (mkRoute (linkIndex (tracker s)) dst SCOPE_LINK) ∧
            IPNet_String dst = CIDR_String cidr)
  ∨ createHostRoute (CIDR_String cidr) s
    = (Some (ParseError "CIDR address" (CIDR_String cidr)), s).
Proof.
  unfold createHostRoute.
  destruct (parseCIDR (CIDR_String cidr)) as [e|dst] eqn:Hp.
  - right. by rewrite (parseCIDR_error _ _ Hp).
  - left. apply parseCIDR_round_trip in Hp. eexists _, dst.
    split_and!; [|reflexivity|reflexivity|done]. simpl. by rewrite Hp.
Qed.

Lemma deleteHostRoute_run cidr (s : State) :
  (∃ c dst, op_of_call c = RemoveHostRoute (CIDR_String cidr) ∧
            deleteHostRoute (CIDR_String cidr) s = call c s ∧
            c = Netlink_RouteDel (mkRoute (linkIndex (tracker s)) dst SCOPE_LINK) ∧
            IPNet_String dst = CIDR_String cidr)
  ∨ deleteHostRoute (CIDR_String cidr) s
    = (Some (ParseError "CIDR address" (CIDR_String cidr)), s).
Proof.
  unfold deleteHostRoute.
  destruct (parseCIDR (CIDR_String cidr)) as [e|dst] eqn:Hp.
  - right. by rewrite (parseCIDR_error _ _ Hp).
  - left. apply parseCIDR_round_trip in Hp. eexists _, dst.
    split_and!; [|reflexivity|reflexivity|done]. simpl. by rewrite Hp.
Qed.

(** The loops, one entry at a time. *)
Lemma addEntries_cons cidr rest (s : State) :
  addEntries (cidr :: rest) s =
    match createVPCRoute (CIDR_String cidr) s with
    | (Some err, s1) => (Some (Errorf "createVPCRoutes failed: " err), s1)
    | (None, s1) =>
        match createHostRoute (CIDR_String cidr) s1 with
        | (Some err, s2) => (Some (Errorf "createHostRoute failed: " err), s2)
        | (None, s2) => addEntries rest s2
        end
    end.
Proof.
  cbn [addEntries]. unfold mbind, M_bind, debugf, mret, M_ret.
  destruct (createVPCRoute (CIDR_String cidr) s) as [[e1|] s1]; [reflexivity|].
  destruct (createHostRoute (CIDR_String cidr) s1) as [[e2|] s2]; reflexivity.
Qed.

Lemma removeEntries_cons cidr rest (s : State) :
  removeEntries (cidr :: rest) s =
    match deleteVPCRoute (CIDR_String cidr) s with
    | (Some err, s1) => (Some (Errorf "deleteVPCRoute failed: " err), s1)
    | (None, s1) =>
        match deleteHostRoute (CIDR_String cidr) s1 with
        | (Some err, s2) => (Some (Errorf "deleteHostRoute failed: " err), s2)
        | (None, s2) => removeEntries rest s2
        end
    end.
Proof.
  cbn [removeEntries]. unfold mbind, M_bind, debugf, mret, M_ret.
  destruct (deleteVPCRoute (CIDR_String cidr) s) as [[e1|] s1]; [reflexivity|].
  destruct (deleteHostRoute (CIDR_String cidr) s1) as [[e2|] s2]; reflexivity.
Qed.

Lemma HandleUpdate_unfold prevRanges currRanges (s : State) :
  HandleUpdate prevRanges currRanges s =
    match addEntries (removeCommon (NewCIDRs prevRanges) (NewCIDRs currRanges)).2 s with
    | (Some err, s1) => (Some err, s1)
    | (None, s1) =>
        removeEntries (removeCommon (NewCIDRs prevRanges) (NewCIDRs currRanges)).1 s1
    end.
Proof.
  unfold HandleUpdate, mbind, M_bind, debugf, mret, M_ret.
  destruct (removeCommon _ _) as [prev curr]. simpl.
  by destruct (addEntries curr s) as [[e|] s1].
Qed.

(** ** Composing runs *)

Lemma ops_of_app l k : ops_of (l ++ k) = ops_of l ++ ops_of k.
Proof. apply fmap_app. Qed.

Lemma run_shape_nil : run_shape [] [] None.
Proof. split; [done|]. split; [done | constructor]. Qed.

Lemma run_shape_call_failed c u op rest :
  op_of_call c = op →
  run_shape (op :: rest) [(c, Some u)]
    (Some (Errorf (failed_method op +:+ " failed: ") u)).
Proof.
  intros <-. split; [by apply prefix_cons, prefix_nil|].
  left. exists [], c, u. split_and!; [done | constructor | done].
Qed.

Lemma run_shape_parse_failed op rest :
  is_host op = true →
  run_shape (op :: rest) []
    (Some (Errorf (failed_method op +:+ " failed: ")
                  (ParseError "CIDR address" (op_range op)))).
Proof.
  intros Hop. split; [apply prefix_nil|].
  right. split; [constructor|]. by exists op.
Qed.

Lemma run_shape_seq canon1 canon2 new1 new2 err :
  ops_of new1 = canon1 → Forall succeeded new1 →
  run_shape canon2 new2 err → run_shape (canon1 ++ canon2) (new1 ++ new2) err.
Proof.
  intros <- Hok [Hpre Hsh]. split.
  { rewrite ops_of_app. by apply prefix_app. }
  destruct err as [e|].
  - destruct Hsh as [(pre & c & u & -> & Hpre' & ->)|(Hall & op & Hop & Hhost & ->)].
    + left. exists (new1 ++ pre), c, u. split_and!; [by rewrite app_assoc | | done].
      by apply Forall_app.
    + right. split; [by apply Forall_app|]. exists op. split_and!; [|done..].
      rewrite length_app, lookup_app_r by (unfold ops_of; rewrite length_fmap; lia).
      rewrite <- Hop. f_equal. unfold ops_of. rewrite length_fmap. lia.
  - destruct Hsh as [Heq Hall].
    split; [by rewrite ops_of_app, Heq | by apply Forall_app].
Qed.

Lemma run_shape_weaken canon1 canon2 new e :
  run_shape canon1 new (Some e) → run_shape (canon1 ++ canon2) new (Some e).
Proof.
  intros [Hpre Hsh]. split; [by apply prefix_app_r|].
  destruct Hsh as [?|(Hall & op & Hop & Hhost & ->)]; [by left|].
  right. split; [done|]. exists op. split_and!; [|done..].
  by apply lookup_app_l_Some.
Qed.

(** ** The two loops and [HandleUpdate] *)

Lemma bind_add_ops cidr rest :
  (cidr :: rest) ≫= add_ops
  = [AddCloudRoute (CIDR_String cidr)]
    ++ (AddHostRoute (CIDR_String cidr) :: rest ≫= add_ops).
Proof. done. Qed.

Lemma bind_remove_ops cidr rest :
  (cidr :: rest) ≫= remove_ops
  = [RemoveCloudRoute (CIDR_String cidr)]
    ++ (RemoveHostRoute (CIDR_String cidr) :: rest ≫= remove_ops).
Proof. done. Qed.

Lemma addEntries_run l (s : State) :
  tracker (addEntries l s).2 = tracker s ∧
  ∃ new, calls (addEntries l s).2 = calls s ++ new ∧
         run_shape (l ≫= add_ops) new (addEntries l s).1.
Proof.
  revert s. induction l as [|cidr rest IH]; intros s.
  { split; [done|]. exists []. split; [by rewrite app_nil_r | apply run_shape_nil]. }
  rewrite addEntries_cons, bind_add_ops.
  destruct (createVPCRoute_run (CIDR_String cidr) s) as (c1 & Hop1 & -> & _).
  pose proof (tracker_call c1 s) as Ht1. pose proof (calls_call c1 s) as Hc1.
  destruct (call c1 s) as [[u1|] s1]; cbn [fst snd] in *.
  { split; [done|]. eexists. split; [done|].
    by apply (run_shape_call_failed c1 u1 (AddCloudRoute (CIDR_String cidr))). }
  destruct (createHostRoute_run cidr s1) as [(c2 & dst & Hop2 & -> & _)| ->].
  - pose proof (tracker_call c2 s1) as Ht2. pose proof (calls_call c2 s1) as Hc2.
    destruct (call c2 s1) as [[u2|] s2]; cbn [fst snd] in *.
    + split; [congruence|]. exists ([(c1, None)] ++ [(c2, Some u2)]).
      split; [by rewrite Hc2, Hc1, <- app_assoc|].
      apply run_shape_seq; [by rewrite <- Hop1 | by constructor |].
      by apply (run_shape_call_failed c2 u2 (AddHostRoute (CIDR_String cidr))).
    + destruct (IH s2) as (Ht & new & Hc & Hsh).
      split; [congruence|]. exists ([(c1, None)] ++ [(c2, None)] ++ new).
      split; [by rewrite Hc, Hc2, Hc1, <- !app_assoc|].
      apply run_shape_seq; [by rewrite <- Hop1 | by constructor |].
      apply (run_shape_seq [AddHostRoute (CIDR_String cidr)]);
        [by rewrite <- Hop2 | by constructor | done].
  - split; [done|]. exists ([(c1, None)] ++ []).
    split; [by rewrite app_nil_r|].
    apply run_shape_seq; [by rewrite <- Hop1 | by constructor |].
    by apply (run_shape_parse_failed (AddHostRoute (CIDR_String cidr))).
Qed.

Lemma removeEntries_run l (s : State) :
  tracker (removeEntries l s).2 = tracker s ∧
  ∃ new, calls (removeEntries l s).2 = calls s ++ new ∧
         run_shape (l ≫= remove_ops) new (removeEntries l s).1.
Proof.
  revert s. induction l as [|cidr rest IH]; intros s.
  { split; [done|]. exists []. split; [by rewrite app_nil_r | apply run_shape_nil]. }
  rewrite removeEntries_cons, bind_remove_ops.
  destruct (deleteVPCRoute_run (CIDR_String cidr) s) as (c1 & Hop1 & -> & _).
  pose proof (tracker_call c1 s) as Ht1. pose proof (calls_call c1 s) as Hc1.
  destruct (call c1 s) as [[u1|] s1]; cbn [fst snd] in *.
  { split; [done|]. eexists. split; [done|].
    by apply (run_shape_call_failed c1 u1 (RemoveCloudRoute (CIDR_String cidr))). }
  destruct (deleteHostRoute_run cidr s1) as [(c2 & dst & Hop2 & -> & _)| ->].
  - pose proof (tracker_call c2 s1) as Ht2. pose proof (calls_call c2 s1) as Hc2.
    destruct (call c2 s1) as [[u2|] s2]; cbn [fst snd] in *.
    + split; [congruence|]. exists ([(c1, None)] ++ [(c2, Some u2)]).
      split; [by rewrite Hc2, Hc1, <- app_assoc|].
      apply run_shape_seq; [by rewrite <- Hop1 | by constructor |].
      by apply (run_shape_call_failed c2 u2 (RemoveHostRoute (CIDR_String cidr))).
    + destruct (IH s2) as (Ht & new & Hc & Hsh).
      split; [congruence|]. exists ([(c1, None)] ++ [(c2, None)] ++ new).
      split; [by rewrite Hc, Hc2, Hc1, <- !app_assoc|].
      apply run_shape_seq; [by rewrite <- Hop1 | by constructor |].
      apply (run_shape_seq [RemoveHostRoute (CIDR_String cidr)]);
        [by rewrite <- Hop2 | by constructor | done].
  - split; [done|]. exists ([(c1, None)] ++ []).
    split; [by rewrite app_nil_r|].
    apply run_shape_seq; [by rewrite <- Hop1 | by constructor |].
    by apply (run_shape_parse_failed (RemoveHostRoute (CIDR_String cidr))).
Qed.

Lemma HandleUpdate_run prevRanges currRanges (s : State) :
  let diff := removeCommon (NewCIDRs prevRanges) (NewCIDRs currRanges) in
  tracker (HandleUpdate prevRanges currRanges s).2 = tracker s ∧
  ∃ new, calls (HandleUpdate prevRanges currRanges s).2 = calls s ++ new ∧
         run_shape (canonical_ops diff.1 diff.2) new
           (HandleUpdate prevRanges currRanges s).1.
Proof.
  intros diff. rewrite HandleUpdate_unfold. fold diff. unfold canonical_ops.
  destruct (addEntries_run diff.2 s) as (Ht1 & new1 & Hc1 & Hsh1).
  destruct (addEntries diff.2 s) as [[e|] s1]; simpl in Ht1, Hc1, Hsh1.
  { split; [done|]. exists new1. split; [done|]. by apply run_shape_weaken. }
  destruct (removeEntries_run diff.1 s1) as (Ht2 & new2 & Hc2 & Hsh2).
  split; [congruence|]. exists (new1 ++ new2).
  split; [by rewrite Hc2, Hc1, <- app_assoc|].
  destruct Hsh1 as (_ & Hops & Hok). by apply run_shape_seq.
Qed.

Lemma issued_run prevRanges currRanges (s : State) new :
  calls (HandleUpdate prevRanges currRanges s).2 = calls s ++ new →
  issued prevRanges currRanges s = new.
Proof. intros Hc. unfold issued. by rewrite Hc, drop_app_length. Qed.

End Runs.

(** * The claims about HandleUpdate *)

Section Claims.
Context `{GoNetIPv6} `{Backends} `{AddressRanges}.

Lemma issued_ops_run prevRanges currRanges (s : State) new :
  calls (HandleUpdate prevRanges currRanges s).2 = calls s ++ new →
  issued prevRanges currRanges s = new ∧ issued_ops prevRanges currRanges s = ops_of new.
Proof.
  intros Hc. unfold issued_ops. by rewrite (issued_run _ _ _ _ Hc).
Qed.

Lemma Forall_is_add_add_ops (l : list CIDR) :
  Forall (fun o => is_add o = true) (l ≫= add_ops).
Proof.
  induction l as [|c l IH]; [constructor|].
  rewrite bind_add_ops. by repeat constructor.
Qed.

Lemma prefix_take {A} (l1 l2 : list A) : l1 `prefix_of` l2 → l1 = take (length l1) l2.
Proof. intros [k ->]. by rewrite take_app_length. Qed.

(** C9. [HandleUpdate] leaves the tracker as it found it, whatever the
    inputs and whatever the backends answer. *)
Theorem HandleUpdate_tracker_unchanged prevRanges currRanges (s : State) :
  tracker (HandleUpdate prevRanges currRanges s).2 = tracker s.
Proof. apply HandleUpdate_run. Qed.

(** C5. [removeCommon A A] yields two empty outputs, for every [A] and so
    for every valid range set; and [HandleUpdate] with equal previous
    and current ranges succeeds without a call to either backend: the
    state, with its two tables and its log of calls, is unchanged. *)
Theorem identical_sets_no_op (A : list CIDR) (ranges : list Range) (s : State) :
  removeCommon A A = ([], []) ∧
  HandleUpdate ranges ranges s = (None, s) ∧
  issued ranges ranges s = [].
Proof.
  assert (HandleUpdate ranges ranges s = (None, s)) as Hrun.
  { rewrite HandleUpdate_unfold, removeCommon_merge, merge_diff_same. done. }
  split_and!; [by rewrite removeCommon_merge, merge_diff_same | done |].
  unfold issued. rewrite Hrun. simpl. by rewrite drop_all.
Qed.

(** C3, as amended. The operations of the calls [HandleUpdate] makes are
    a prefix of the canonical sequence (for each added range in
    [onlyCurr] order the cloud add then the host add, then for each
    removed range in [onlyPrev] order the cloud remove then the host
    remove). [HandleUpdate] returns success exactly when the full
    sequence has been issued and every operation of it succeeded. A call
    that fails is the last one made, and the update then fails; so if the
    failing call is the k-th operation of the add phase, what has been
    issued is the first k operations of that phase, and no remove. *)
Theorem HandleUpdate_sequence prevRanges currRanges (s : State) :
  let diff := removeCommon (NewCIDRs prevRanges) (NewCIDRs currRanges) in
  let canon := canonical_ops diff.1 diff.2 in
  let new := issued prevRanges currRanges s in
  let err := (HandleUpdate prevRanges currRanges s).1 in
  issued_ops prevRanges currRanges s `prefix_of` canon ∧
  (err = None ↔ issued_ops prevRanges currRanges s = canon ∧ Forall succeeded new) ∧
  (∀ k c u, new !! k = Some (c, Some u) → length new = S k ∧ err ≠ None) ∧
  (∀ k c u, new !! k = Some (c, Some u) → (k < length (diff.2 ≫= add_ops))%nat →
     issued_ops prevRanges currRanges s = take (S k) (diff.2 ≫= add_ops) ∧
     Forall (fun o => is_add o = true) (issued_ops prevRanges currRanges s)).
Proof.
  intros diff canon new err.
  destruct (HandleUpdate_run prevRanges currRanges s) as (_ & new0 & Hc & Hsh).
  destruct (issued_ops_run _ _ _ _ Hc) as [Hnew Hops].
  fold diff canon err in Hsh. fold new in Hnew. rewrite Hops. subst new0.
  destruct Hsh as [Hpre Hsh].
  assert (∀ k c u, new !! k = Some (c, Some u) → length new = S k ∧ err ≠ None)
    as Hfail.
  { intros k c u Hk. destruct err as [e|].
    - destruct Hsh as [(pre & c' & u' & Heq & Hok & _)|(Hok & _)].
      + split; [|done]. rewrite Heq in Hk |- *. rewrite length_app. simpl.
        destruct (decide (k < length pre)%nat) as [Hlt|Hge].
        * rewrite lookup_app_l in Hk by done.
          rewrite Forall_lookup in Hok. by specialize (Hok _ _ Hk).
        * apply lookup_lt_Some in Hk. rewrite length_app in Hk. simpl in Hk. lia.
      + rewrite Forall_lookup in Hok. by specialize (Hok _ _ Hk).
    - destruct Hsh as [_ Hok]. rewrite Forall_lookup in Hok.
      by specialize (Hok _ _ Hk). }
  split_and!; [done | | done |].
  - split.
    + intros ->. done.
    + intros [Heq Hok]. destruct err as [e|]; [exfalso|done].
      destruct Hsh as [(pre & c' & u' & Hnew' & _ & _)|(_ & op & Hop & _)].
      * rewrite Hnew' in Hok. apply Forall_app in Hok as [_ Hok].
        inversion Hok as [|?? Hx]. discriminate Hx.
      * apply lookup_lt_Some in Hop. rewrite <- Heq in Hop.
        unfold ops_of in Hop. rewrite length_fmap in Hop. lia.
  - intros k c u Hk Hlt. destruct (Hfail k c u Hk) as [Hlen _].
    assert (ops_of new = take (S k) (diff.2 ≫= add_ops)) as Heq.
    { rewrite (prefix_take _ _ Hpre). unfold ops_of at 1. rewrite length_fmap, Hlen.
      unfold canon, canonical_ops. by rewrite take_app_le by lia. }
    split; [done|]. rewrite Heq. apply Forall_take, Forall_is_add_add_ops.
Qed.

(** C4, as amended. When a backend call fails, it is the last call of
    the update, and [HandleUpdate] returns an error whose text names the
    method that failed (createVPCRoutes, createHostRoute, deleteVPCRoute
    or deleteHostRoute), followed by " failed: " and the text of the
    backend's error. The range is not part of the error. *)
Theorem HandleUpdate_backend_failure prevRanges currRanges (s : State) c u :
  (c, Some u) ∈ issued prevRanges currRanges s →
  (HandleUpdate prevRanges currRanges s).1
    = Some (errorString (failed_method (op_of_call c) +:+ " failed: " +:+ Error u)) ∧
  last (issued prevRanges currRanges s) = Some (c, Some u).
Proof.
  intros Hin.
  destruct (HandleUpdate_run prevRanges currRanges s) as (_ & new & Hc & Hsh).
  rewrite (issued_run _ _ _ _ Hc) in *.
  destruct Hsh as [_ Hsh].
  destruct ((HandleUpdate prevRanges currRanges s).1) as [e|].
  - destruct Hsh as [(pre & c' & u' & -> & Hok & ->)|(Hok & _)].
    + apply elem_of_app in Hin as [Hin|Hin].
      * rewrite Forall_forall in Hok. by specialize (Hok _ Hin).
      * apply list_elem_of_singleton in Hin as [= <- <-].
        rewrite last_snoc. split; [|done].
        unfold Errorf. by rewrite append_assoc.
    + rewrite Forall_forall in Hok. by specialize (Hok _ Hin).
  - destruct Hsh as [_ Hok]. rewrite Forall_forall in Hok. by specialize (Hok _ Hin).
Qed.

End Claims.


(** C3 as stated fails where it says that the full sequence is issued
    exactly when [HandleUpdate] returns success. With no previous range,
    the one current range 10.0.1.0/24, a cloud add that succeeds and a host
    add that fails, both operations of the canonical sequence are issued
    and [HandleUpdate] returns an error. *)
Lemma full_sequence_issued_on_failure :
  let st := state0 ∅ ∅ [None; Some (backendError "file exists")] in
  let diff := removeCommon [] [net_10_0_1] in
  run_issued_ops [] [net_10_0_1] st = canonical_ops diff.1 diff.2 ∧
  canonical_ops diff.1 diff.2 = [AddCloudRoute "10.0.1.0/24"; AddHostRoute "10.0.1.0/24"] ∧
  (run_update [] [net_10_0_1] st).1 = Some (errorString "createHostRoute failed: file exists").
Proof. split_and!; reflexivity. Qed.

(** C4 as stated fails where it says that the error identifies the range.
    A cloud add that fails with the same backend error on 10.0.0.0/24 and
    on 10.0.1.0/24 makes [HandleUpdate] return the same error, so no reading
    of the error gives the range of the failed call. *)
Lemma error_does_not_identify_range :
  let st := state0 ∅ ∅ [Some (backendError "RouteLimitExceeded")] in
  (run_update [] [net_10_0_0] st).1 = Some (errorString "createVPCRoutes failed: RouteLimitExceeded") ∧
  (run_update [] [net_10_0_1] st).1 = Some (errorString "createVPCRoutes failed: RouteLimitExceeded") ∧
  run_issued_ops [] [net_10_0_0] st = [AddCloudRoute "10.0.0.0/24"] ∧
  run_issued_ops [] [net_10_0_1] st = [AddCloudRoute "10.0.1.0/24"] ∧
  ¬ @error_identifies_range ipv4_only scripted_tables cidr_ranges.
Proof.
  split_and!; try reflexivity.
  intros [range_of Hr].
  set (st := state0 ∅ ∅ [Some (backendError "RouteLimitExceeded")]).
  set (c0 := @EC2_CreateRoute scripted_tables tt (mkCreateRouteInput "rtb-1" "i-0123" "10.0.0.0/24")).
  set (c1 := @EC2_CreateRoute scripted_tables tt (mkCreateRouteInput "rtb-1" "i-0123" "10.0.1.0/24")).
  assert (range_of (errorString "createVPCRoutes failed: RouteLimitExceeded") = "10.0.0.0/24") as H0.
  { apply (Hr ([] : list (@Range cidr_ranges)) [net_10_0_0] st c0 (backendError "RouteLimitExceeded"));
      [|reflexivity].
    change (@issued ipv4_only scripted_tables cidr_ranges [] [net_10_0_0] st)
      with [(c0, Some (backendError "RouteLimitExceeded"))].
    apply list_elem_of_here. }
  assert (range_of (errorString "createVPCRoutes failed: RouteLimitExceeded") = "10.0.1.0/24") as H1.
  { apply (Hr ([] : list (@Range cidr_ranges)) [net_10_0_1] st c1 (backendError "RouteLimitExceeded"));
      [|reflexivity].
    change (@issued ipv4_only scripted_tables cidr_ranges [] [net_10_0_1] st)
      with [(c1, Some (backendError "RouteLimitExceeded"))].
    apply list_elem_of_here. }
  rewrite H0 in H1. discriminate H1.
Qed.

(** The two examples of the spec. *)
Example HandleUpdate_example :
  run_issued_ops [net_10_0_0; net_10_0_2] [net_10_0_1; net_10_0_2]
    (state0 (range_strings [net_10_0_0; net_10_0_2]) (range_strings [net_10_0_0; net_10_0_2]) [])
  = [AddCloudRoute "10.0.1.0/24"; AddHostRoute "10.0.1.0/24";
     RemoveCloudRoute "10.0.0.0/24"; RemoveHostRoute "10.0.0.0/24"].
Proof. reflexivity. Qed.

Example HandleUpdate_host_failure_example :
  let st := state0 ∅ ∅ [None; Some (backendError "file exists")] in
  (run_update [] [net_10_0_1] st).1 = Some (errorString "createHostRoute failed: file exists") ∧
  run_issued_ops [] [net_10_0_1] st = [AddCloudRoute "10.0.1.0/24"; AddHostRoute "10.0.1.0/24"].
Proof. split; reflexivity. Qed.

(** * The tables after an update *)

Lemma IP4_inj a b :
  0 <= a < 2 ^ 32 → 0 <= b < 2 ^ 32 → IP4 a = IP4 b → a = b.
Proof.
  unfold IP4, byte. rewrite !Z.shiftr_div_pow2 by lia.
  change (2 ^ 32) with 4294967296. change (2 ^ 24) with 16777216.
  change (2 ^ 16) with 65536. change (2 ^ 8) with 256.
  intros Ha Hb [= H3 H2 H1 H0].
  revert H3 H2 H1 H0. Z.div_mod_to_equations. lia.
Qed.

Lemma CIDR_wf_addr c : CIDR_wf c = true → 0 <= Addr c < 2 ^ 32.
Proof.
  intros Hwf. pose proof (CIDR_wf_prefix c Hwf) as Hp.
  pose proof (CIDR_Size_pos c Hp).
  unfold CIDR_wf in Hwf. rewrite !andb_true_iff, !Z.leb_le, Z.ltb_lt in Hwf.
  unfold CIDR_End in Hwf. lia.
Qed.

Section StringInjective.
Context `{GoNetIPv6}.

(** Two well-formed CIDRs with the same canonical string are the same. *)
Lemma CIDR_String_inj c1 c2 :
  CIDR_wf c1 = true → CIDR_wf c2 = true → CIDR_String c1 = CIDR_String c2 → c1 = c2.
Proof.
  intros Hw1 Hw2 Heq.
  pose proof (CIDR_wf_prefix _ Hw1) as Hp1. pose proof (CIDR_wf_prefix _ Hw2) as Hp2.
  destruct (IP4_octets (Addr c1)) as (a1 & b1 & x1 & d1 & Hb1 & ? & ? & ? & ?).
  destruct (IP4_octets (Addr c2)) as (a2 & b2 & x2 & d2 & Hb2 & ? & ? & ? & ?).
  pose proof (parseCIDR_canonical c1 a1 b1 x1 d1 Hb1) as P1.
  pose proof (parseCIDR_canonical c2 a2 b2 x2 d2 Hb2) as P2.
  rewrite Heq in P1. rewrite P2 in P1 by done.
  destruct (Z.leb_spec 0 (PrefixLen c1)), (Z.leb_spec (PrefixLen c1) 32); try lia.
  destruct (Z.leb_spec 0 (PrefixLen c2)), (Z.leb_spec (PrefixLen c2) 32); try lia.
  simpl in P1. specialize (P1 ltac:(done) ltac:(done) ltac:(done) ltac:(done)).
  injection P1 as Ea Eb Ex Ed Hmask.
  assert (PrefixLen c1 = PrefixLen c2) as Hp.
  { destruct (CIDRMask_facts _ Hp1) as [<- _]. destruct (CIDRMask_facts _ Hp2) as [<- _].
    by rewrite Hmask. }
  assert (Addr c1 = Addr c2) as Ha.
  { apply IP4_inj; [by apply CIDR_wf_addr..|]. rewrite Hb1, Hb2. congruence. }
  destruct c1, c2; simpl in *; congruence.
Qed.

End StringInjective.

Section Tables.
Context `{TableLaws} `{AddressRanges}.

Lemma range_strings_nil : range_strings [] = ∅.
Proof. done. Qed.

Lemma range_strings_cons c l : range_strings (c :: l) = {[CIDR_String c]} ∪ range_strings l.
Proof. done. Qed.

(** A successful add loop inserts the range strings of its entries into
    both tables. *)
Lemma addEntries_tables l (s s' : State) :
  addEntries l s = (None, s') →
  cloud_table (world s') = range_strings l ∪ cloud_table (world s) ∧
  host_table (world s') = range_strings l ∪ host_table (world s).
Proof.
  revert s. induction l as [|cidr rest IH]; intros s Hrun.
  { injection Hrun as <-. by rewrite range_strings_nil, !(left_id_L ∅ (∪)). }
  rewrite addEntries_cons in Hrun.
  destruct (createVPCRoute_run (CIDR_String cidr) s) as (c1 & _ & Hr1 & Hcall1).
  rewrite Hr1 in Hrun. pose proof (world_call c1 s) as Hw1.
  destruct (call c1 s) as [[u1|] s1]; [done|]. subst c1. simpl in Hw1. symmetry in Hw1.
  apply CreateRoute_inserts in Hw1 as [Hc1 Hh1]. simpl in Hc1.
  destruct (createHostRoute_run cidr s1) as [(c2 & dst & _ & Hr2 & Hcall2 & Hdst)|Hr2];
    rewrite Hr2 in Hrun; [|done].
  pose proof (world_call c2 s1) as Hw2.
  destruct (call c2 s1) as [[u2|] s2]; [done|]. subst c2. simpl in Hw2. symmetry in Hw2.
  apply RouteAdd_inserts in Hw2 as [Hh2 Hc2]. simpl in Hh2. rewrite Hdst in Hh2.
  destruct (IH _ Hrun) as [Hc Hh]. rewrite range_strings_cons.
  rewrite Hc, Hh, Hc2, Hh2, Hc1, Hh1.
  split; [by rewrite (assoc_L (∪)), (comm_L (∪) (range_strings rest))
         | by rewrite (assoc_L (∪)), (comm_L (∪) (range_strings rest))].
Qed.

(** A successful remove loop deletes the range strings of its entries from
    both tables. *)
Lemma removeEntries_tables l (s s' : State) :
  removeEntries l s = (None, s') →
  cloud_table (world s') = cloud_table (world s) ∖ range_strings l ∧
  host_table (world s') = host_table (world s) ∖ range_strings l.
Proof.
  revert s. induction l as [|cidr rest IH]; intros s Hrun.
  { injection Hrun as <-. by rewrite range_strings_nil, !difference_empty_L. }
  rewrite removeEntries_cons in Hrun.
  destruct (deleteVPCRoute_run (CIDR_String cidr) s) as (c1 & _ & Hr1 & Hcall1).
  rewrite Hr1 in Hrun. pose proof (world_call c1 s) as Hw1.
  destruct (call c1 s) as [[u1|] s1]; [done|]. subst c1. simpl in Hw1. symmetry in Hw1.
  apply DeleteRoute_deletes in Hw1 as [Hc1 Hh1]. simpl in Hc1.
  destruct (deleteHostRoute_run cidr s1) as [(c2 & dst & _ & Hr2 & Hcall2 & Hdst)|Hr2];
    rewrite Hr2 in Hrun; [|done].
  pose proof (world_call c2 s1) as Hw2.
  destruct (call c2 s1) as [[u2|] s2]; [done|]. subst c2. simpl in Hw2. symmetry in Hw2.
  apply RouteDel_deletes in Hw2 as [Hh2 Hc2]. simpl in Hh2. rewrite Hdst in Hh2.
  destruct (IH _ Hrun) as [Hc Hh]. rewrite range_strings_cons.
  rewrite Hc, Hh, Hc2, Hh2, Hc1, Hh1.
  split; by rewrite difference_difference_l_L.
Qed.

Lemma elem_of_range_strings x l : x ∈ range_strings l ↔ ∃ c, x = CIDR_String c ∧ c ∈ l.
Proof. unfold range_strings. rewrite elem_of_list_to_set. apply list_elem_of_fmap. Qed.

(** Adding what is only in [B] and removing what is only in [A] turns the
    range strings of [A] into those of [B]. *)
Lemma reconcile_sets (A B : list CIDR) :
  Forall (fun c => CIDR_wf c = true) A → Forall (fun c => CIDR_wf c = true) B →
  (range_strings (list_difference B A) ∪ range_strings A)
    ∖ range_strings (list_difference A B)
  = range_strings B.
Proof.
  intros HA HB. rewrite Forall_forall in HA, HB. apply set_eq. intros x.
  rewrite elem_of_difference, elem_of_union, !elem_of_range_strings. split.
  - intros [[(c & -> & Hc)|(c & -> & Hc)] Hno].
    + apply list_elem_of_difference in Hc as [Hc _]. eauto.
    + destruct (decide (c ∈ B)) as [|Hcb]; [eauto|].
      exfalso. apply Hno. exists c. split; [done|].
      by apply list_elem_of_difference.
  - intros (c & -> & Hc). split.
    + destruct (decide (c ∈ A)) as [|Hca]; [right; eauto|].
      left. exists c. split; [done|]. by apply list_elem_of_difference.
    + intros (c' & Heq & Hc'). apply list_elem_of_difference in Hc' as [Hc'A Hc'B].
      apply CIDR_String_inj in Heq; [|by apply HB | by apply HA]. by subst c'.
Qed.

(** C1. For sorted, non-overlapping previous and current range sets: if
    each of the two tables holds exactly the range strings of the previous
    set, then after [HandleUpdate] returns success each of them holds
    exactly the range strings of the current set. *)
Theorem HandleUpdate_tables prevRanges currRanges (s s' : State) :
  valid_range_set (NewCIDRs prevRanges) = true →
  valid_range_set (NewCIDRs currRanges) = true →
  cloud_table (world s) = range_strings (NewCIDRs prevRanges) →
  host_table (world s) = range_strings (NewCIDRs prevRanges) →
  HandleUpdate prevRanges currRanges s = (None, s') →
  cloud_table (world s') = range_strings (NewCIDRs currRanges) ∧
  host_table (world s') = range_strings (NewCIDRs currRanges).
Proof.
  intros Hprev Hcurr Hcloud Hhost Hrun.
  rewrite HandleUpdate_unfold, removeCommon_difference in Hrun by done.
  cbn [fst snd] in Hrun.
  destruct (addEntries _ s) as [[e|] s1] eqn:Hadd; [done|].
  apply addEntries_tables in Hadd as [Hc1 Hh1].
  apply removeEntries_tables in Hrun as [Hc2 Hh2].
  rewrite Hc2, Hh2, Hc1, Hh1, Hcloud, Hhost.
  split; apply reconcile_sets; by apply valid_range_set_wf.
Qed.

End Tables.

(** The scripted tables are tables in the sense of the laws. *)
Lemma scripted_laws : @TableLaws ipv4_only scripted_tables scripted_view.
Proof.
  split; simpl; unfold scripted; intros; destruct (t_script _) as [|[e|] rest];
    simplify_eq; done.
Qed.

Lemma HandleUpdate_tables_witness :
  let prev := [net_10_0_0; net_10_0_2] in
  let curr := [net_10_0_1; net_10_0_2] in
  let st := state0 (range_strings prev) (range_strings prev) [] in
  valid_range_set prev = true ∧ valid_range_set curr = true ∧
  (run_update prev curr st).1 = None ∧
  t_cloud (@world scripted_tables (run_update prev curr st).2) = range_strings curr ∧
  t_host (@world scripted_tables (run_update prev curr st).2) = range_strings curr.
Proof.
  split; [reflexivity|]. split; [reflexivity|]. split; [reflexivity|].
  apply (@HandleUpdate_tables ipv4_only scripted_tables scripted_view scripted_laws
           cidr_ranges [net_10_0_0; net_10_0_2] [net_10_0_1; net_10_0_2]
           (state0 (range_strings [net_10_0_0; net_10_0_2])
                   (range_strings [net_10_0_0; net_10_0_2]) []));
    reflexivity.
Defined.

(** * The claims about parseCIDR *)

Section ParseClaims.
Context `{GoNetIPv6}.

(** C7. Parsing a canonical CIDR string with [parseCIDR] succeeds, and the
    network it returns prints as the very same string. *)
Theorem parseCIDR_canonical_round_trip (s : string) :
  canonical_string s → ∃ n, parseCIDR s = inr n ∧ IPNet_String n = s.
Proof.
  intros (c & Hp & ->). destruct (parseCIDR_wf c Hp) as [n Hn].
  exists n. split; [done|]. by apply parseCIDR_round_trip.
Qed.

End ParseClaims.

Lemma parseCIDR_canonical_round_trip_witness :
  canonical_string "10.0.0.0/24" ∧
  ∃ n, @parseCIDR ipv4_only "10.0.0.0/24" = inr n ∧ @IPNet_String ipv4_only n = "10.0.0.0/24".
Proof.
  assert (canonical_string "10.0.0.0/24") as Hc.
  { exists net_10_0_0. split; [simpl; lia | reflexivity]. }
  split; [exact Hc|].
  exact (@parseCIDR_canonical_round_trip ipv4_only "10.0.0.0/24" Hc).
Defined.

Example parseCIDR_keeps_host_bits :
  option_map (@IPNet_String ipv4_only)
    (match @parseCIDR ipv4_only "10.0.1.7/24" with inr n => Some n | inl _ => None end)
  = Some "10.0.1.7/24".
Proof. reflexivity. Qed.

Lemma HandleUpdate_backend_failure_witness :
  let st := state0 ∅ ∅ [None; Some (backendError "file exists")] in
  let c := @Netlink_RouteAdd scripted_tables
             (mkRoute 7 (mkIPNet (IPv4 10 0 1 0) [255; 255; 255; 0]) SCOPE_LINK) in
  (c, Some (backendError "file exists")) ∈ run_issued [] [net_10_0_1] st ∧
  (run_update [] [net_10_0_1] st).1 = Some (errorString "createHostRoute failed: file exists") ∧
  last (run_issued [] [net_10_0_1] st) = Some (c, Some (backendError "file exists")).
Proof.
  assert ((@Netlink_RouteAdd scripted_tables
             (mkRoute 7 (mkIPNet (IPv4 10 0 1 0) [255; 255; 255; 0]) SCOPE_LINK),
           Some (backendError "file exists"))
          ∈ run_issued [] [net_10_0_1] (state0 ∅ ∅ [None; Some (backendError "file exists")]))
    as Hin.
  { apply list_elem_of_further, list_elem_of_here. }
  split; [exact Hin|].
  exact (@HandleUpdate_backend_failure ipv4_only scripted_tables cidr_ranges
           [] [net_10_0_1] (state0 ∅ ∅ [None; Some (backendError "file exists")]) _ _ Hin).
Defined.

(** ** What the parsers accept *)

Lemma length_string_take k s :
  (k ≤ String.length s)%nat → String.length (string_take k s) = k.
Proof.
  revert s. induction k as [|k IH]; intros [|c s] Hk; simpl in *; try done; try lia.
  rewrite IH; lia.
Qed.

Lemma string_take_all s : string_take (String.length s) s = s.
Proof. induction s as [|c s IH]; simpl; congruence. Qed.

Lemma dtoi_loop_inv s n0 i0 n i :
  dtoi_loop s n0 i0 = (n, i, true) →
  ∃ k, i = (i0 + k)%nat ∧ (k ≤ String.length s)%nat ∧
       all_digits (string_take k s) = true ∧ dval (string_take k s) n0 = n ∧
       no_digit_head (string_drop k s) = true.
Proof.
  revert n0 i0. induction s as [|c s IH]; intros n0 i0 Hl; simpl in Hl.
  - injection Hl as <- <-. exists 0%nat. split_and!; simpl; (done || lia).
  - destruct (is_digit c) eqn:Hc.
    + destruct (Z.leb_spec big (n0 * 10 + (byte_of c - byte_of "0"))); [done|].
      destruct (IH _ _ Hl) as (k & -> & Hk & Hd & Hv & Hr).
      exists (S k). simpl. rewrite Hc. split_and!; (done || lia).
    + injection Hl as <- <-. exists 0%nat. simpl. rewrite Hc.
      split_and!; (done || lia).
Qed.

(** A number read by [dtoi] is the decimal text at the head of the string,
    up to the first byte that is not a digit. *)
Lemma dtoi_inv s n i :
  dtoi s = (n, i, true) →
  decimal_text (string_take i s) n ∧ no_digit_head (string_drop i s) = true ∧
  (i ≤ String.length s)%nat.
Proof.
  unfold dtoi. destruct (dtoi_loop s 0 0) as [[n' i'] ok] eqn:Hl.
  destruct ok; simpl; [|done].
  destruct (Nat.eqb_spec i' 0); [done|]. intros [= <- <-].
  apply dtoi_loop_inv in Hl as (k & -> & Hk & Hd & Hv & Hr). simpl in *.
  split_and!; try done. split_and!; try done.
  intros Hnil. apply (f_equal String.length) in Hnil.
  rewrite length_string_take in Hnil by done. simpl in Hnil. lia.
Qed.




Lemma dotted_quad_parse addr a b c d :
  dotted_quad addr a b c d →
  parseIPv4 addr = IPv4 a b c d ∧ has_byte "/" addr = false.
Proof.
  intros (d1 & d2 & d3 & d4 & -> & O1 & O2 & O3 & O4).
  split; [by apply parseIPv4_dotted|].
  rewrite !has_byte_append.
  rewrite (has_byte_decimal_text "/" _ _ (proj1 O1)),
    (has_byte_decimal_text "/" _ _ (proj1 O2)),
    (has_byte_decimal_text "/" _ _ (proj1 O3)),
    (has_byte_decimal_text "/" _ _ (proj1 O4)) by done.
  done.
Qed.

Section ParseErrors.
Context `{GoNetIPv6} `{Backends}.

(** [net.ParseCIDR] on a string cut at its first slash. *)
Lemma ParseCIDR_split addr mask :
  has_byte "/" addr = false →
  ParseCIDR (addr +:+ String "/" mask) =
    let '(iplen, ip) :=
      if bool_decide (parseIPv4 addr = []) then (IPv6len, parseIPv6 addr)
      else (IPv4len, parseIPv4 addr) in
    let '(n, i, ok) := dtoi mask in
    if bool_decide (ip = []) || negb ok || negb (i =? String.length mask)%nat
       || (n <? 0) || (8 * iplen <? n)
    then inl (ParseError "CIDR address" (addr +:+ String "/" mask))
    else
      let m := CIDRMask n (8 * iplen) in
      inr (ip, {| IPNet_IP := IP_Mask ip m; IPNet_Mask := m |}).
Proof.
  intros Hno. unfold ParseCIDR.
  rewrite byteIndex_append by done.
  destruct (Z.ltb_spec (Z.of_nat (String.length addr)) 0); [lia|].
  rewrite Nat2Z.id.
  replace (Z.to_nat (Z.of_nat (String.length addr) + 1)) with (S (String.length addr)) by lia.
  by rewrite string_take_append, string_drop_S_append.
Qed.

(** What [net.ParseCIDR] makes of the text of an IPv4 network. *)
Lemma ParseCIDR_ipv4_network s a b c d n :
  ipv4_network_text s a b c d n →
  ParseCIDR s = inr (IPv4 a b c d,
                     {| IPNet_IP := IP_Mask (IPv4 a b c d) (CIDRMask n 32);
                        IPNet_Mask := CIDRMask n 32 |}).
Proof.
  intros (addr & m & -> & Hq & Tm & ?).
  destruct (dotted_quad_parse _ _ _ _ _ Hq) as [H4 Hno].
  pose proof (decimal_text_value _ _ Tm).
  change ("/" +:+ m) with (String "/" m).
  rewrite (ParseCIDR_split addr m Hno), H4.
  change (bool_decide (IPv4 a b c d = [])) with false. cbv iota.
  pose proof (dtoi_decimal m "" n Tm eq_refl) as Hd. rewrite append_nil_r in Hd.
  rewrite Hd by (unfold big; lia). rewrite Nat.eqb_refl.
  change (bool_decide (IPv4 a b c d = [])) with false.
  change (8 * IPv4len) with 32.
  destruct (Z.ltb_spec n 0); [lia|]. destruct (Z.ltb_spec 32 n); [lia|]. done.
Qed.




End ParseErrors.

Example parseCIDR_rejects :
  @parseCIDR ipv4_only "10.0.0.0/33" = inl (ParseError "CIDR address" "10.0.0.0/33") ∧
  @parseCIDR ipv4_only "10.0.0/24" = inl (ParseError "CIDR address" "10.0.0/24") ∧
  @parseCIDR ipv4_only "10.0.0.0" = inl (ParseError "CIDR address" "10.0.0.0") ∧
  @parseCIDR ipv4_only "010.0.1.7/24" = inl (ParseError "CIDR address" "010.0.1.7/24") ∧
  @parseCIDR ipv4_only "10.0.1.7/024"
    = inr {| IPNet_IP := IPv4 10 0 1 7; IPNet_Mask := [255; 255; 255; 0] |}.
Proof. split_and!; reflexivity. Qed.


(** * More about removeCommon *)

Lemma merge_diff_sublists a b :
  (merge_diff a b).1 `sublist_of` a ∧ (merge_diff a b).2 `sublist_of` b.
Proof.
  revert b. induction a as [|x a' IHa]; intros b.
  { rewrite merge_diff_nil_l. split; [constructor | done]. }
  induction b as [|y b' IHb].
  { rewrite merge_diff_nil_r. split; [done | constructor]. }
  rewrite merge_diff_cons. destruct (CIDR_Equal x y).
  - destruct (IHa b') as [H1 H2]. split; by apply sublist_cons.
  - destruct (CIDR_End x <? CIDR_End y); cbn [fst snd].
    + destruct (IHa (y :: b')) as [H1 H2]. split; [by apply sublist_skip | done].
    + destruct IHb as [H1 H2]. split; [done | by apply sublist_skip].
Qed.

Lemma merge_diff_pairs a b :
  ∃ ca cb, Forall2 (fun x y => CIDR_Equal x y = true) ca cb ∧
           a ≡ₚ (merge_diff a b).1 ++ ca ∧ b ≡ₚ (merge_diff a b).2 ++ cb.
Proof.
  revert b. induction a as [|x a' IHa]; intros b.
  { exists [], []. rewrite merge_diff_nil_l. simpl. by rewrite app_nil_r. }
  induction b as [|y b' IHb].
  { exists [], []. rewrite merge_diff_nil_r. simpl. by rewrite app_nil_r. }
  rewrite merge_diff_cons. destruct (CIDR_Equal x y) eqn:Heq.
  - destruct (IHa b') as (ca & cb & Hp & Ha & Hb).
    exists (x :: ca), (y :: cb). split_and!; [by constructor | |].
    + by rewrite <- Permutation_middle, <- Ha.
    + by rewrite <- Permutation_middle, <- Hb.
  - destruct (CIDR_End x <? CIDR_End y); cbn [fst snd].
    + destruct (IHa (y :: b')) as (ca & cb & Hp & Ha & Hb).
      exists ca, cb. split_and!; [done | | done]. simpl. by rewrite <- Ha.
    + destruct IHb as (ca & cb & Hp & Ha & Hb).
      exists ca, cb. split_and!; [done | done |]. simpl. by rewrite <- Hb.
Qed.

(** X1. Whatever the two slices, sorted or not, each output of
    [removeCommon] is a subsequence of its input: the merge drops entries
    and never adds, repeats or reorders one. *)
Theorem removeCommon_sublists (a b : list CIDR) :
  (removeCommon a b).1 `sublist_of` a ∧ (removeCommon a b).2 `sublist_of` b.
Proof. rewrite removeCommon_merge. apply merge_diff_sublists. Qed.

(** X2. Whatever the two slices, what [removeCommon] drops, it drops in
    pairs: the entries dropped from [a] and those dropped from [b] are the
    same in number and equal pair by pair, and each input is its output
    together with its dropped entries. *)
Theorem removeCommon_drops_equal_pairs (a b : list CIDR) :
  ∃ ca cb, Forall2 (fun x y => CIDR_Equal x y = true) ca cb ∧
           a ≡ₚ (removeCommon a b).1 ++ ca ∧ b ≡ₚ (removeCommon a b).2 ++ cb.
Proof. rewrite removeCommon_merge. apply merge_diff_pairs. Qed.

Lemma forallb_sublist {A} (f : A → bool) (l k : list A) :
  l `sublist_of` k → forallb f k = true → forallb f l = true.
Proof.
  intros Hsub. rewrite !forallb_forall. intros Hk x Hx. apply Hk.
  apply list_elem_of_In. apply list_elem_of_In in Hx.
  by eapply elem_of_sublist.
Qed.

Lemma sorted_by_end_sublist l k :
  l `sublist_of` k → sorted_by_end k = true → sorted_by_end l = true.
Proof.
  induction 1 as [|x l k Hsub IH|x l k Hsub IH]; simpl; [done| |].
  - rewrite !andb_true_iff. intros [Hx Hk]. split; [|by apply IH].
    by apply (forallb_sublist _ l k).
  - rewrite andb_true_iff. intros [_ Hk]. by apply IH.
Qed.

Lemma non_overlapping_sublist l k :
  l `sublist_of` k → non_overlapping k = true → non_overlapping l = true.
Proof.
  induction 1 as [|x l k Hsub IH|x l k Hsub IH]; simpl; [done| |].
  - rewrite !andb_true_iff. intros [Hx Hk]. split; [|by apply IH].
    by apply (forallb_sublist _ l k).
  - rewrite andb_true_iff. intros [_ Hk]. by apply IH.
Qed.

Lemma valid_range_set_sublist l k :
  l `sublist_of` k → valid_range_set k = true → valid_range_set l = true.
Proof.
  unfold valid_range_set. rewrite !andb_true_iff. intros Hsub [[Hw Hs] Hn].
  split_and!; eauto using forallb_sublist, sorted_by_end_sublist, non_overlapping_sublist.
Qed.

(** X3. The outputs of [removeCommon] on sorted, non-overlapping range
    sets are sorted, non-overlapping range sets again, so [HandleUpdate]
    adds and removes in increasing order of end address. *)
Theorem removeCommon_outputs_valid (a b : list CIDR) :
  valid_range_set a = true → valid_range_set b = true →
  valid_range_set (removeCommon a b).1 = true ∧
  valid_range_set (removeCommon a b).2 = true.
Proof.
  intros Ha Hb. rewrite removeCommon_merge.
  destruct (merge_diff_sublists a b) as [H1 H2].
  split; eauto using valid_range_set_sublist.
Qed.

Lemma removeCommon_outputs_valid_witness :
  valid_range_set [net_10_0_0; net_10_0_2] = true ∧
  valid_range_set [net_10_0_1; net_10_0_2] = true ∧
  valid_range_set (removeCommon [net_10_0_0; net_10_0_2] [net_10_0_1; net_10_0_2]).1 = true ∧
  valid_range_set (removeCommon [net_10_0_0; net_10_0_2] [net_10_0_1; net_10_0_2]).2 = true.
Proof.
  split; [reflexivity|]. split; [reflexivity|].
  exact (removeCommon_outputs_valid [net_10_0_0; net_10_0_2] [net_10_0_1; net_10_0_2]
           eq_refl eq_refl).
Defined.

(** X4. On sorted, non-overlapping range sets [removeCommon] is symmetric:
    exchanging the two inputs exchanges the two outputs, each entry in the
    place it had. (The switch prefers its second input when two unequal
    ranges end at the same address, so this needs the precondition.) *)
Theorem removeCommon_symmetric (a b : list CIDR) :
  valid_range_set a = true → valid_range_set b = true →
  removeCommon b a = ((removeCommon a b).2, (removeCommon a b).1).
Proof.
  intros Ha Hb. by rewrite (removeCommon_difference a b), (removeCommon_difference b a).
Qed.

Lemma removeCommon_symmetric_witness :
  valid_range_set [net_10_0_0; net_10_0_2] = true ∧
  valid_range_set [net_10_0_1; net_10_0_2] = true ∧
  removeCommon [net_10_0_1; net_10_0_2] [net_10_0_0; net_10_0_2]
  = ((removeCommon [net_10_0_0; net_10_0_2] [net_10_0_1; net_10_0_2]).2,
     (removeCommon [net_10_0_0; net_10_0_2] [net_10_0_1; net_10_0_2]).1).
Proof.
  split; [reflexivity|]. split; [reflexivity|].
  exact (removeCommon_symmetric [net_10_0_0; net_10_0_2] [net_10_0_1; net_10_0_2]
           eq_refl eq_refl).
Defined.

(** Without the precondition the symmetry is lost: with [b] unsorted, a
    common entry hidden behind an entry with the same end is dropped one
    way and kept the other way. *)
Example removeCommon_not_symmetric :
  removeCommon [net_10_0_0] [net_10_0_0_128; net_10_0_0] = ([], [net_10_0_0_128]) ∧
  removeCommon [net_10_0_0_128; net_10_0_0] [net_10_0_0]
  = ([net_10_0_0_128; net_10_0_0], [net_10_0_0]).
Proof. split; reflexivity. Qed.

(** * More about parseCIDR *)

Lemma CIDRMask_length_ones bits n :
  bits = 32 ∨ bits = 128 → 0 <= n <= bits →
  len (CIDRMask n bits) = bits / 8 ∧ simpleMaskLength (CIDRMask n bits) = n.
Proof.
  intros [->| ->] Hn.
  - destruct (CIDRMask_facts n Hn) as (? & ? & _). done.
  - pose proof (range_check 128
      (fun p => (len (CIDRMask p 128) =? 16) && (simpleMaskLength (CIDRMask p 128) =? p))) as Hc.
    specialize (Hc ltac:(vm_compute; reflexivity) n ltac:(lia)). simpl in Hc.
    apply andb_true_iff in Hc as [H1 H2]. change (128 / 8) with 16. lia.
Qed.

Lemma IP_Mask_IPv4 a b c d m :
  len m = 4 → IP_Mask (IPv4 a b c d) m = zip_with Z.land [a; b; c; d] m.
Proof.
  intros Hm. unfold IP_Mask. rewrite Hm.
  change (4 =? IPv6len) with false. change (4 =? IPv4len) with true.
  cbn [andb]. change (len (IPv4 a b c d) =? IPv6len) with true.
  change (bool_decide (take 12 (IPv4 a b c d) = v4InV6Prefix)) with true.
  cbn [andb]. change (drop 12 (IPv4 a b c d)) with [a; b; c; d].
  change (len [a; b; c; d]) with 4. rewrite Hm. done.
Qed.

Section ParseMore.
Context `{GoNetIPv6}.

Lemma IPNet_String_ipv4 a b c d n :
  0 <= n <= 32 →
  IPNet_String {| IPNet_IP := IPv4 a b c d; IPNet_Mask := CIDRMask n 32 |}
  = ipv4_network_canonical a b c d n.
Proof.
  intros Hn. destruct (CIDRMask_facts _ Hn) as (Hlen & Hm & _).
  unfold IPNet_String, networkNumberAndMask. simpl IPNet_IP. simpl IPNet_Mask.
  change (To4 (IPv4 a b c d)) with [a; b; c; d].
  change (bool_decide ([a; b; c; d] = [])) with false. cbv iota.
  rewrite Hm. change (4 =? IPv4len) with true. cbv iota.
  change (len [a; b; c; d] =? IPv4len) with true. simpl negb. cbv iota.
  rewrite Hlen. destruct (Z.eqb_spec n (-1)); [lia|].
  unfold IP_String. change (len [a; b; c; d] =? 0) with false. cbv iota.
  change (To4 [a; b; c; d]) with [a; b; c; d]. cbv iota. done.
Qed.

(** X5. From the text of an IPv4 network (octets without leading zeros)
    [parseCIDR] returns the address as it is written, host bits included,
    in the 16 byte form, with the mask of the prefix length;
    [net.ParseCIDR] alone would give the network the masked address. *)
Theorem parseCIDR_address_as_written s a b c d n :
  ipv4_network_text s a b c d n →
  parseCIDR s = inr {| IPNet_IP := IPv4 a b c d; IPNet_Mask := CIDRMask n 32 |} ∧
  ∃ net, ParseCIDR s = inr (IPv4 a b c d, net) ∧
         IPNet_IP net = zip_with Z.land [a; b; c; d] (CIDRMask n 32) ∧
         IPNet_Mask net = CIDRMask n 32.
Proof.
  intros Ht. pose proof (ParseCIDR_ipv4_network _ _ _ _ _ _ Ht) as Hp.
  assert (0 <= n <= 32) as Hn.
  { destruct Ht as (addr & m & _ & _ & Tm & ?).
    pose proof (decimal_text_value _ _ Tm). lia. }
  split; [unfold parseCIDR; by rewrite Hp|].
  eexists. split; [exact Hp|]. simpl. split; [|done].
  apply IP_Mask_IPv4. by destruct (CIDRMask_facts _ Hn) as (_ & ? & _).
Qed.

Lemma ipv4_network_canonical_text a b c d n :
  0 <= a <= 255 → 0 <= b <= 255 → 0 <= c <= 255 → 0 <= d <= 255 → 0 <= n <= 32 →
  ipv4_network_text (ipv4_network_canonical a b c d n) a b c d n.
Proof.
  intros. exists (uitoa a +:+ "." +:+ uitoa b +:+ "." +:+ uitoa c +:+ "." +:+ uitoa d),
    (uitoa n).
  split_and!; [done | | apply uitoa_decimal_text; lia | lia].
  exists (uitoa a), (uitoa b), (uitoa c), (uitoa d).
  split_and!; [done | by apply uitoa_octet..].
Qed.

(** X6. Parsing the text of an IPv4 network and printing the result writes
    the same network, host bits kept, its prefix length without the
    leading zeros it may have been written with (the octets have none);
    and the printed text parses to the same network again. *)
Theorem parseCIDR_print_normalises s a b c d n :
  ipv4_network_text s a b c d n →
  ∃ net, parseCIDR s = inr net ∧
         IPNet_String net = ipv4_network_canonical a b c d n ∧
         parseCIDR (IPNet_String net) = inr net.
Proof.
  intros Ht. pose proof (ParseCIDR_ipv4_network _ _ _ _ _ _ Ht) as Hp.
  destruct Ht as (addr & m & _ & (d1 & d2 & d3 & d4 & _ & O1 & O2 & O3 & O4) & Tm & ?).
  destruct O1 as (T1 & ? & _), O2 as (T2 & ? & _), O3 as (T3 & ? & _), O4 as (T4 & ? & _).
  pose proof (decimal_text_value _ _ T1). pose proof (decimal_text_value _ _ T2).
  pose proof (decimal_text_value _ _ T3). pose proof (decimal_text_value _ _ T4).
  pose proof (decimal_text_value _ _ Tm).
  exists {| IPNet_IP := IPv4 a b c d; IPNet_Mask := CIDRMask n 32 |}.
  split; [unfold parseCIDR; by rewrite Hp|].
  rewrite IPNet_String_ipv4 by lia. split; [done|].
  unfold parseCIDR.
  by rewrite (ParseCIDR_ipv4_network _ a b c d n)
    by (apply ipv4_network_canonical_text; lia).
Qed.

(** X7. Every network [parseCIDR] returns, for IPv4 and IPv6 text alike,
    has the mask of a prefix length: 4 or 16 bytes that are [n] one bits
    followed by zero bits, [n] being the number written after the first
    slash. *)
Theorem parseCIDR_mask_is_prefix s net :
  parseCIDR s = inr net →
  ∃ bits n,
    (bits = 32 ∨ bits = 128) ∧ 0 <= n <= bits ∧
    decimal_text (string_drop (Z.to_nat (byteIndex s "/" + 1)) s) n ∧
    IPNet_Mask net = CIDRMask n bits ∧
    len (IPNet_Mask net) = bits / 8 ∧ simpleMaskLength (IPNet_Mask net) = n.
Proof.
  unfold parseCIDR, ParseCIDR.
  destruct (byteIndex s "/" <? 0); [done|].
  set (mask := string_drop (Z.to_nat (byteIndex s "/" + 1)) s).
  destruct (dtoi mask) as [[n k] ok] eqn:Hd.
  assert (∀ iplen ip,
    iplen = IPv4len ∨ iplen = IPv6len →
    match (if bool_decide (ip = []) || negb ok || negb (k =? String.length mask)%nat
              || (n <? 0) || (8 * iplen <? n)
           then inl (ParseError "CIDR address" s)
           else inr (ip, {| IPNet_IP := IP_Mask ip (CIDRMask n (8 * iplen));
                            IPNet_Mask := CIDRMask n (8 * iplen) |})) with
    | inl err => inl err
    | inr (ip, ipnet) => inr {| IPNet_IP := ip; IPNet_Mask := IPNet_Mask ipnet |}
    end = inr net →
    ∃ bits n0, (bits = 32 ∨ bits = 128) ∧ 0 <= n0 <= bits ∧ decimal_text mask n0 ∧
      IPNet_Mask net = CIDRMask n0 bits ∧
      len (IPNet_Mask net) = bits / 8 ∧ simpleMaskLength (IPNet_Mask net) = n0) as Hcond.
  { intros iplen ip Hlen Hif.
    destruct (bool_decide (ip = [])); [done|].
    destruct ok; [|done]. destruct (Nat.eqb_spec k (String.length mask)); [|done].
    simpl in Hif. destruct (Z.ltb_spec n 0); [done|].
    destruct (Z.ltb_spec (8 * iplen) n); [done|].
    simpl in Hif. injection Hif as <-. simpl. subst k.
    apply dtoi_inv in Hd as (Hdec & _ & _). rewrite string_take_all in Hdec.
    assert (8 * iplen = 32 ∨ 8 * iplen = 128) as Hbits
      by (destruct Hlen as [-> | ->]; [by left | by right]).
    exists (8 * iplen), n. split_and!; try done; try lia.
    - by apply CIDRMask_length_ones.
    - by apply CIDRMask_length_ones. }
  destruct (bool_decide (parseIPv4 _ = [])); apply Hcond; auto.
Qed.

End ParseMore.

Lemma octet_text_digits d n :
  decimal_text d n → n <= 255 → head_is "0" d = false → octet_text d n.
Proof. intros Hd Hn Hz. split_and!; [done..|]. by rewrite Hz. Qed.

Lemma ipv4_network_text_10_0_1_7 m :
  decimal_text m 24 → ipv4_network_text ("10.0.1.7/" +:+ m) 10 0 1 7 24.
Proof.
  intros Hm. exists "10.0.1.7", m. split_and!; [done | | done | lia].
  exists "10", "0", "1", "7".
  split_and!; [done | | by split_and! | |]; by apply octet_text_digits.
Qed.

Lemma parseCIDR_address_as_written_witness :
  ipv4_network_text "10.0.1.7/24" 10 0 1 7 24 ∧
  @parseCIDR ipv4_only "10.0.1.7/24"
  = inr {| IPNet_IP := IPv4 10 0 1 7; IPNet_Mask := CIDRMask 24 32 |}.
Proof.
  assert (ipv4_network_text "10.0.1.7/24" 10 0 1 7 24) as Ht
    by (by apply (ipv4_network_text_10_0_1_7 "24")).
  split; [exact Ht|].
  exact (proj1 (@parseCIDR_address_as_written ipv4_only "10.0.1.7/24" 10 0 1 7 24 Ht)).
Defined.

Lemma parseCIDR_print_normalises_witness :
  ipv4_network_text "10.0.1.7/024" 10 0 1 7 24 ∧
  ∃ net, @parseCIDR ipv4_only "10.0.1.7/024" = inr net ∧
         @IPNet_String ipv4_only net = "10.0.1.7/24" ∧
         @parseCIDR ipv4_only (@IPNet_String ipv4_only net) = inr net.
Proof.
  assert (ipv4_network_text "10.0.1.7/024" 10 0 1 7 24) as Ht
    by (by apply (ipv4_network_text_10_0_1_7 "024")).
  split; [exact Ht|].
  exact (@parseCIDR_print_normalises ipv4_only "10.0.1.7/024" 10 0 1 7 24 Ht).
Defined.

Lemma parseCIDR_mask_is_prefix_witness :
  @parseCIDR ipv4_only "10.0.0.0/24"
    = inr {| IPNet_IP := IPv4 10 0 0 0; IPNet_Mask := [255; 255; 255; 0] |} ∧
  ∃ bits n,
    (bits = 32 ∨ bits = 128) ∧ 0 <= n <= bits ∧
    decimal_text (string_drop (Z.to_nat (byteIndex "10.0.0.0/24" "/" + 1)) "10.0.0.0/24") n ∧
    [255; 255; 255; 0] = CIDRMask n bits ∧
    len [255; 255; 255; 0] = bits / 8 ∧ simpleMaskLength [255; 255; 255; 0] = n.
Proof.
  split; [reflexivity|].
  exact (@parseCIDR_mask_is_prefix ipv4_only "10.0.0.0/24"
           {| IPNet_IP := IPv4 10 0 0 0; IPNet_Mask := [255; 255; 255; 0] |} eq_refl).
Defined.

(** * More about HandleUpdate *)

Section MoreRuns.
Context `{GoNetIPv6} `{Backends} `{AddressRanges}.

Lemma call_of_tracker_create str (t : AWSVPCTracker) :
  call_of_tracker t
    (EC2_CreateRoute (ec2 t) (mkCreateRouteInput (routeTableID t) (instanceID t) str)).
Proof. done. Qed.

Lemma last_app_singleton {A} (l : list A) x : last (l ++ [x]) = Some x.
Proof. apply last_snoc. Qed.

(** The add loop: its calls carry the tracker's fields, and when the
    prefix lengths are in range it fails only after a call that failed. *)
Lemma addEntries_calls l (s : State) :
  ∃ new, calls (addEntries l s).2 = calls s ++ new ∧
    Forall (fun x => call_of_tracker (tracker s) x.1) new ∧
    (prefix_lengths_ok l → ∀ e, (addEntries l s).1 = Some e →
       ∃ c u, last new = Some (c, Some u)).
Proof.
  revert s. induction l as [|cidr rest IH]; intros s.
  { exists []. split_and!; [by rewrite app_nil_r | constructor | done]. }
  rewrite addEntries_cons.
  destruct (createVPCRoute_run (CIDR_String cidr) s) as (c1 & _ & -> & Hc1eq).
  assert (call_of_tracker (tracker s) c1) as Hof1 by (by subst c1).
  pose proof (tracker_call c1 s) as Ht1. pose proof (calls_call c1 s) as Hc1.
  destruct (call c1 s) as [[u1|] s1]; cbn [fst snd] in *.
  { exists [(c1, Some u1)]. split_and!; [done | by repeat first [apply Forall_nil_2 | apply Forall_cons_2] | eauto]. }
  unfold createHostRoute.
  destruct (parseCIDR (CIDR_String cidr)) as [pe|dst] eqn:Hparse.
  - exists [(c1, None)]. split_and!; [done | by repeat first [apply Forall_nil_2 | apply Forall_cons_2] |].
    intros Hok. apply Forall_cons in Hok as [Hp _].
    destruct (parseCIDR_wf cidr Hp) as [n Hn]. congruence.
  - unfold mbind, M_bind, gets.
    set (c2 := Netlink_RouteAdd {| LinkIndex := linkIndex (tracker s1); Dst := dst;
                                   Scope := SCOPE_LINK |}).
    assert (call_of_tracker (tracker s) c2) as Hof2 by (by rewrite <- Ht1).
    pose proof (tracker_call c2 s1) as Ht2. pose proof (calls_call c2 s1) as Hc2.
    destruct (call c2 s1) as [[u2|] s2]; cbn [fst snd] in *.
    + exists [(c1, None); (c2, Some u2)].
      split_and!; [by rewrite Hc2, Hc1, <- app_assoc | by repeat first [apply Forall_nil_2 | apply Forall_cons_2] | eauto].
    + destruct (IH s2) as (new & Hc & Hof & Hfail).
      exists ([(c1, None); (c2, None)] ++ new).
      split_and!; [by rewrite Hc, Hc2, Hc1, <- !app_assoc | |].
      * apply Forall_app. split; [by repeat first [apply Forall_nil_2 | apply Forall_cons_2]|].
        by rewrite Ht2, Ht1 in Hof.
      * intros Hok e He. apply Forall_cons in Hok as [_ Hok].
        destruct (Hfail Hok e He) as (c & u & Hlast). exists c, u.
        destruct new as [|x new]; [done|]. by rewrite last_app_cons.
Qed.

Lemma removeEntries_calls l (s : State) :
  ∃ new, calls (removeEntries l s).2 = calls s ++ new ∧
    Forall (fun x => call_of_tracker (tracker s) x.1) new ∧
    (prefix_lengths_ok l → ∀ e, (removeEntries l s).1 = Some e →
       ∃ c u, last new = Some (c, Some u)).
Proof.
  revert s. induction l as [|cidr rest IH]; intros s.
  { exists []. split_and!; [by rewrite app_nil_r | constructor | done]. }
  rewrite removeEntries_cons.
  destruct (deleteVPCRoute_run (CIDR_String cidr) s) as (c1 & _ & -> & Hc1eq).
  assert (call_of_tracker (tracker s) c1) as Hof1 by (by subst c1).
  pose proof (tracker_call c1 s) as Ht1. pose proof (calls_call c1 s) as Hc1.
  destruct (call c1 s) as [[u1|] s1]; cbn [fst snd] in *.
  { exists [(c1, Some u1)]. split_and!; [done | by repeat first [apply Forall_nil_2 | apply Forall_cons_2] | eauto]. }
  unfold deleteHostRoute.
  destruct (parseCIDR (CIDR_String cidr)) as [pe|dst] eqn:Hparse.
  - exists [(c1, None)]. split_and!; [done | by repeat first [apply Forall_nil_2 | apply Forall_cons_2] |].
    intros Hok. apply Forall_cons in Hok as [Hp _].
    destruct (parseCIDR_wf cidr Hp) as [n Hn]. congruence.
  - unfold mbind, M_bind, gets.
    set (c2 := Netlink_RouteDel {| LinkIndex := linkIndex (tracker s1); Dst := dst;
                                   Scope := SCOPE_LINK |}).
    assert (call_of_tracker (tracker s) c2) as Hof2 by (by rewrite <- Ht1).
    pose proof (tracker_call c2 s1) as Ht2. pose proof (calls_call c2 s1) as Hc2.
    destruct (call c2 s1) as [[u2|] s2]; cbn [fst snd] in *.
    + exists [(c1, None); (c2, Some u2)].
      split_and!; [by rewrite Hc2, Hc1, <- app_assoc | by repeat first [apply Forall_nil_2 | apply Forall_cons_2] | eauto].
    + destruct (IH s2) as (new & Hc & Hof & Hfail).
      exists ([(c1, None); (c2, None)] ++ new).
      split_and!; [by rewrite Hc, Hc2, Hc1, <- !app_assoc | |].
      * apply Forall_app. split; [by repeat first [apply Forall_nil_2 | apply Forall_cons_2]|].
        by rewrite Ht2, Ht1 in Hof.
      * intros Hok e He. apply Forall_cons in Hok as [_ Hok].
        destruct (Hfail Hok e He) as (c & u & Hlast). exists c, u.
        destruct new as [|x new]; [done|]. by rewrite last_app_cons.
Qed.

Lemma prefix_lengths_ok_sublist l k :
  l `sublist_of` k → prefix_lengths_ok k → prefix_lengths_ok l.
Proof.
  unfold prefix_lengths_ok. rewrite !Forall_forall. intros Hs Hk x Hx.
  apply Hk. by eapply elem_of_sublist.
Qed.

Lemma HandleUpdate_calls prevRanges currRanges (s : State) :
  ∃ new, calls (HandleUpdate prevRanges currRanges s).2 = calls s ++ new ∧
    Forall (fun x => call_of_tracker (tracker s) x.1) new ∧
    (prefix_lengths_ok (NewCIDRs prevRanges) → prefix_lengths_ok (NewCIDRs currRanges) →
     ∀ e, (HandleUpdate prevRanges currRanges s).1 = Some e →
       ∃ c u, last new = Some (c, Some u)).
Proof.
  rewrite HandleUpdate_unfold.
  pose proof (merge_diff_sublists (NewCIDRs prevRanges) (NewCIDRs currRanges)) as [Hs1 Hs2].
  rewrite <- removeCommon_merge in Hs1, Hs2.
  set (diff := removeCommon _ _) in *.
  destruct (addEntries_calls diff.2 s) as (new1 & Hc1 & Hof1 & Hfail1).
  pose proof (addEntries_run diff.2 s) as [Ht1 _].
  destruct (addEntries diff.2 s) as [[e|] s1]; cbn [fst snd] in *.
  { exists new1. split_and!; [done..|]. intros Hp Hc. apply Hfail1.
    by eapply prefix_lengths_ok_sublist. }
  destruct (removeEntries_calls diff.1 s1) as (new2 & Hc2 & Hof2 & Hfail2).
  exists (new1 ++ new2). split_and!; [by rewrite Hc2, Hc1, <- app_assoc | |].
  - apply Forall_app. split; [done|]. by rewrite Ht1 in Hof2.
  - intros Hp Hc e He.
    destruct (Hfail2 ltac:(by eapply prefix_lengths_ok_sublist) e He) as (c & u & Hlast).
    exists c, u. destruct new2 as [|x new2]; [done|].
    by rewrite last_app_cons.
Qed.

(** X8. Every call [HandleUpdate] makes carries the fields of the
    tracker: the EC2 calls go through its client and name its route table,
    the creations with its instance as the target; the netlink calls are
    for link-scoped routes on its link. *)
Theorem HandleUpdate_calls_of_tracker prevRanges currRanges (s : State) :
  Forall (fun x => call_of_tracker (tracker s) x.1) (issued prevRanges currRanges s).
Proof.
  destruct (HandleUpdate_calls prevRanges currRanges s) as (new & Hc & Hof & _).
  by rewrite (issued_run _ _ _ _ Hc).
Qed.

(** X9. When every prefix length of the two range sets is between 0 and
    32, no range string fails to parse: [HandleUpdate] returns an error
    only when its last call failed, and so it returns success exactly when
    every call it made succeeded. *)
Theorem HandleUpdate_fails_only_on_backend prevRanges currRanges (s : State) :
  prefix_lengths_ok (NewCIDRs prevRanges) → prefix_lengths_ok (NewCIDRs currRanges) →
  ((HandleUpdate prevRanges currRanges s).1 = None
   ↔ Forall succeeded (issued prevRanges currRanges s)) ∧
  (∀ e, (HandleUpdate prevRanges currRanges s).1 = Some e →
     ∃ c u, last (issued prevRanges currRanges s) = Some (c, Some u)).
Proof.
  intros Hp Hc.
  destruct (HandleUpdate_calls prevRanges currRanges s) as (new & Hcalls & _ & Hfail).
  destruct (HandleUpdate_run prevRanges currRanges s) as (_ & new' & Hcalls' & _ & Hsh).
  rewrite Hcalls in Hcalls'. apply app_inv_head in Hcalls'. subst new'.
  rewrite (issued_run _ _ _ _ Hcalls). specialize (Hfail Hp Hc).
  split; [|done].
  destruct ((HandleUpdate prevRanges currRanges s).1) as [e|].
  - split; [done|]. intros Hall. destruct (Hfail e eq_refl) as (c & u & Hlast).
    apply last_Some in Hlast as [pre ->]. apply Forall_app in Hall as [_ Hall].
    inversion Hall as [|?? Hx]. discriminate Hx.
  - by destruct Hsh.
Qed.

Lemma elem_of_add_ops op l :
  op ∈ l ≫= add_ops → ∃ x, x ∈ l ∧ is_add op = true ∧ op_range op = CIDR_String x.
Proof.
  intros (x & Hop & Hx)%list_elem_of_bind. exists x. split; [done|].
  unfold add_ops in Hop. apply elem_of_cons in Hop as [->|Hop]; [done|].
  by apply list_elem_of_singleton in Hop as ->.
Qed.

Lemma elem_of_remove_ops op l :
  op ∈ l ≫= remove_ops → ∃ x, x ∈ l ∧ is_add op = false ∧ op_range op = CIDR_String x.
Proof.
  intros (x & Hop & Hx)%list_elem_of_bind. exists x. split; [done|].
  unfold remove_ops in Hop. apply elem_of_cons in Hop as [->|Hop]; [done|].
  by apply list_elem_of_singleton in Hop as ->.
Qed.

(** X10. For sorted, non-overlapping range sets, [HandleUpdate] touches
    only what differs: each operation it issues adds a range that is in
    the current set and not in the previous one, or removes a range that
    is in the previous set and not in the current one. No operation is
    issued for the range string of a range that is in both. *)
Theorem HandleUpdate_touches_only_differences prevRanges currRanges (s : State) op :
  valid_range_set (NewCIDRs prevRanges) = true →
  valid_range_set (NewCIDRs currRanges) = true →
  op ∈ issued_ops prevRanges currRanges s →
  (∃ x, op_range op = CIDR_String x ∧
     if is_add op
     then x ∈ NewCIDRs currRanges ∧ x ∉ NewCIDRs prevRanges
     else x ∈ NewCIDRs prevRanges ∧ x ∉ NewCIDRs currRanges) ∧
  (∀ c, c ∈ NewCIDRs prevRanges → c ∈ NewCIDRs currRanges →
     op_range op ≠ CIDR_String c).
Proof.
  intros Hprev Hcurr Hin.
  destruct (HandleUpdate_run prevRanges currRanges s) as (_ & new & Hc & Hpre & _).
  unfold issued_ops in Hin. rewrite (issued_run _ _ _ _ Hc) in Hin.
  fold (ops_of new) in Hin.
  rewrite removeCommon_difference in Hpre by done. cbn [fst snd] in Hpre.
  destruct Hpre as [k Hk]. unfold canonical_ops in Hk.
  assert (op ∈ (list_difference (NewCIDRs currRanges) (NewCIDRs prevRanges) ≫= add_ops)
               ++ (list_difference (NewCIDRs prevRanges) (NewCIDRs currRanges) ≫= remove_ops))
    as Hop by (rewrite Hk; apply elem_of_app; by left).
  pose proof (valid_range_set_wf _ Hprev) as Hwp.
  pose proof (valid_range_set_wf _ Hcurr) as Hwc.
  rewrite Forall_forall in Hwp, Hwc.
  assert (∃ x, op_range op = CIDR_String x ∧
     if is_add op
     then x ∈ NewCIDRs currRanges ∧ x ∉ NewCIDRs prevRanges
     else x ∈ NewCIDRs prevRanges ∧ x ∉ NewCIDRs currRanges) as Hx.
  { apply elem_of_app in Hop as [Hop|Hop].
    - apply elem_of_add_ops in Hop as (x & Hx & -> & Hr). exists x.
      by apply list_elem_of_difference in Hx.
    - apply elem_of_remove_ops in Hop as (x & Hx & -> & Hr). exists x.
      by apply list_elem_of_difference in Hx. }
  split; [done|]. intros c Hcp Hcc Heq.
  destruct Hx as (x & Hr & Hx). rewrite Hr in Heq.
  apply CIDR_String_inj in Heq.
  - subst x. destruct (is_add op); by destruct Hx.
  - destruct (is_add op); destruct Hx; auto.
  - auto.
Qed.

End MoreRuns.

Lemma HandleUpdate_fails_only_on_backend_witness :
  let st := state0 ∅ ∅ [None; Some (backendError "file exists")] in
  prefix_lengths_ok [net_10_0_1] ∧
  ((run_update [] [net_10_0_1] st).1 = None ↔ Forall succeeded (run_issued [] [net_10_0_1] st)) ∧
  (∀ e, (run_update [] [net_10_0_1] st).1 = Some e →
     ∃ c u, last (run_issued [] [net_10_0_1] st) = Some (c, Some u)).
Proof.
  assert (prefix_lengths_ok [net_10_0_1]) as Hok
    by (constructor; [simpl; lia | constructor]).
  split; [exact Hok|].
  exact (@HandleUpdate_fails_only_on_backend ipv4_only scripted_tables cidr_ranges
           [] [net_10_0_1] (state0 ∅ ∅ [None; Some (backendError "file exists")])
           (Forall_nil_2 _) Hok).
Defined.

Lemma HandleUpdate_touches_only_differences_witness :
  let prev := [net_10_0_0; net_10_0_2] in
  let curr := [net_10_0_1; net_10_0_2] in
  let st := state0 (range_strings prev) (range_strings prev) [] in
  valid_range_set prev = true ∧ valid_range_set curr = true ∧
  AddCloudRoute "10.0.1.0/24" ∈ run_issued_ops prev curr st ∧
  (∃ x, "10.0.1.0/24" = @CIDR_String x ∧ x ∈ curr ∧ x ∉ prev) ∧
  (∀ c, c ∈ prev → c ∈ curr → "10.0.1.0/24" ≠ CIDR_String c).
Proof.
  assert (AddCloudRoute "10.0.1.0/24"
          ∈ run_issued_ops [net_10_0_0; net_10_0_2] [net_10_0_1; net_10_0_2]
              (state0 (range_strings [net_10_0_0; net_10_0_2])
                      (range_strings [net_10_0_0; net_10_0_2]) [])) as Hin
    by apply list_elem_of_here.
  split; [reflexivity|]. split; [reflexivity|]. split; [exact Hin|].
  exact (@HandleUpdate_touches_only_differences ipv4_only scripted_tables cidr_ranges
           [net_10_0_0; net_10_0_2] [net_10_0_1; net_10_0_2]
           (state0 (range_strings [net_10_0_0; net_10_0_2])
                   (range_strings [net_10_0_0; net_10_0_2]) [])
           (AddCloudRoute "10.0.1.0/24") eq_refl eq_refl Hin).
Defined.

(** * The tables after an update that may have failed *)

#[local] Set Warnings "-clear-no-such-hyp".

Section Frame.
Context `{TableLaws} `{!TableFailLaws} `{AddressRanges}.

(** Whatever its outcome, the add loop only adds, and only range strings
    of its entries. *)
Lemma addEntries_frame l (s : State) :
  cloud_table (world s) ⊆ cloud_table (world (addEntries l s).2) ∧
  cloud_table (world (addEntries l s).2) ⊆ range_strings l ∪ cloud_table (world s) ∧
  host_table (world s) ⊆ host_table (world (addEntries l s).2) ∧
  host_table (world (addEntries l s).2) ⊆ range_strings l ∪ host_table (world s).
Proof.
  revert s. induction l as [|cidr rest IH]; intros s.
  { simpl. set_solver. }
  rewrite addEntries_cons, range_strings_cons.
  destruct (createVPCRoute_run (CIDR_String cidr) s) as (c1 & _ & -> & Hc1).
  pose proof (world_call c1 s) as Hw1.
  destruct (call c1 s) as [[u1|] s1]; cbn [fst snd] in *; symmetry in Hw1.
  { apply failed_call_keeps_tables in Hw1 as [-> ->]. set_solver. }
  subst c1. simpl in Hw1. apply CreateRoute_inserts in Hw1 as [Hcl1 Hh1]. simpl in Hcl1.
  destruct (createHostRoute_run cidr s1) as [(c2 & dst & _ & -> & Hc2 & Hdst)| ->];
    [|cbn [fst snd]; rewrite Hcl1, Hh1; set_solver].
  pose proof (world_call c2 s1) as Hw2.
  destruct (call c2 s1) as [[u2|] s2]; cbn [fst snd] in *; symmetry in Hw2.
  { apply failed_call_keeps_tables in Hw2 as [-> ->]. rewrite Hcl1, Hh1. set_solver. }
  subst c2. simpl in Hw2. apply RouteAdd_inserts in Hw2 as [Hh2 Hcl2].
  simpl in Hh2. rewrite Hdst in Hh2.
  destruct (IH s2) as (I1 & I2 & I3 & I4).
  rewrite Hcl2, Hcl1 in I1, I2. rewrite Hh2, Hh1 in I3, I4. set_solver.
Qed.

(** Whatever its outcome, the remove loop only removes, and only range
    strings of its entries. *)
Lemma removeEntries_frame l (s : State) :
  cloud_table (world s) ∖ range_strings l ⊆ cloud_table (world (removeEntries l s).2) ∧
  cloud_table (world (removeEntries l s).2) ⊆ cloud_table (world s) ∧
  host_table (world s) ∖ range_strings l ⊆ host_table (world (removeEntries l s).2) ∧
  host_table (world (removeEntries l s).2) ⊆ host_table (world s).
Proof.
  revert s. induction l as [|cidr rest IH]; intros s.
  { simpl. set_solver. }
  rewrite removeEntries_cons, range_strings_cons.
  destruct (deleteVPCRoute_run (CIDR_String cidr) s) as (c1 & _ & -> & Hc1).
  pose proof (world_call c1 s) as Hw1.
  destruct (call c1 s) as [[u1|] s1]; cbn [fst snd] in *; symmetry in Hw1.
  { apply failed_call_keeps_tables in Hw1 as [-> ->]. set_solver. }
  subst c1. simpl in Hw1. apply DeleteRoute_deletes in Hw1 as [Hcl1 Hh1]. simpl in Hcl1.
  destruct (deleteHostRoute_run cidr s1) as [(c2 & dst & _ & -> & Hc2 & Hdst)| ->];
    [|cbn [fst snd]; rewrite Hcl1, Hh1; set_solver].
  pose proof (world_call c2 s1) as Hw2.
  destruct (call c2 s1) as [[u2|] s2]; cbn [fst snd] in *; symmetry in Hw2.
  { apply failed_call_keeps_tables in Hw2 as [-> ->]. rewrite Hcl1, Hh1. set_solver. }
  subst c2. simpl in Hw2. apply RouteDel_deletes in Hw2 as [Hh2 Hcl2].
  simpl in Hh2. rewrite Hdst in Hh2.
  destruct (IH s2) as (I1 & I2 & I3 & I4).
  rewrite Hcl2, Hcl1 in I1, I2. rewrite Hh2, Hh1 in I3, I4. set_solver.
Qed.

Lemma HandleUpdate_frame_both prevRanges currRanges (s : State) :
  let diff := removeCommon (NewCIDRs prevRanges) (NewCIDRs currRanges) in
  let s' := (HandleUpdate prevRanges currRanges s).2 in
  cloud_table (world s) ∖ range_strings diff.1 ⊆ cloud_table (world s') ∧
  cloud_table (world s') ⊆ range_strings diff.2 ∪ cloud_table (world s) ∧
  host_table (world s) ∖ range_strings diff.1 ⊆ host_table (world s') ∧
  host_table (world s') ⊆ range_strings diff.2 ∪ host_table (world s).
Proof.
  intros diff s'. subst s'. rewrite HandleUpdate_unfold. fold diff.
  destruct (addEntries_frame diff.2 s) as (A1 & A2 & A3 & A4).
  destruct (addEntries diff.2 s) as [[e|] s1]; cbn [fst snd] in *; [set_solver|].
  destruct (removeEntries_frame diff.1 s1) as (R1 & R2 & R3 & R4).
  set_solver.
Qed.

(** X11. Whether it succeeds or fails, [HandleUpdate] takes out of the
    two tables only range strings of [onlyPrev] and puts into them only
    range strings of [onlyCurr], the two outputs of [removeCommon]: every
    other route is as it was. *)
Theorem HandleUpdate_frame prevRanges currRanges (s : State) :
  let diff := removeCommon (NewCIDRs prevRanges) (NewCIDRs currRanges) in
  let s' := (HandleUpdate prevRanges currRanges s).2 in
  cloud_table (world s) ∖ range_strings diff.1 ⊆ cloud_table (world s') ∧
  cloud_table (world s') ⊆ range_strings diff.2 ∪ cloud_table (world s) ∧
  host_table (world s) ∖ range_strings diff.1 ⊆ host_table (world s') ∧
  host_table (world s') ⊆ range_strings diff.2 ∪ host_table (world s).
Proof. apply HandleUpdate_frame_both. Qed.

Lemma common_not_removed (A B : list CIDR) c :
  Forall (fun c => CIDR_wf c = true) A → c ∈ A → c ∈ B →
  CIDR_String c ∉ range_strings (list_difference A B).
Proof.
  intros HA HcA HcB (x & Heq & Hx)%elem_of_range_strings.
  apply list_elem_of_difference in Hx as [HxA HxB].
  rewrite Forall_forall in HA.
  apply CIDR_String_inj in Heq; [|by apply HA..]. by subst x.
Qed.

(** X12. For sorted, non-overlapping range sets, the route of a range
    that is in both the previous and the current set stays in each table
    that holds it, whether [HandleUpdate] succeeds or fails. *)
Theorem HandleUpdate_keeps_common_routes prevRanges currRanges (s : State) c :
  valid_range_set (NewCIDRs prevRanges) = true →
  valid_range_set (NewCIDRs currRanges) = true →
  c ∈ NewCIDRs prevRanges → c ∈ NewCIDRs currRanges →
  let s' := (HandleUpdate prevRanges currRanges s).2 in
  (CIDR_String c ∈ cloud_table (world s) → CIDR_String c ∈ cloud_table (world s')) ∧
  (CIDR_String c ∈ host_table (world s) → CIDR_String c ∈ host_table (world s')).
Proof.
  intros Hprev Hcurr Hcp Hcc s'.
  destruct (HandleUpdate_frame_both prevRanges currRanges s) as (F1 & _ & F3 & _).
  rewrite removeCommon_difference in F1, F3 by done. cbn [fst snd] in F1, F3.
  pose proof (common_not_removed _ _ c (valid_range_set_wf _ Hprev) Hcp Hcc) as Hno.
  fold s' in F1, F3. split; intros Hin; [apply F1 | apply F3]; set_solver.
Qed.

(** X13. A failed update can be tried again: for sorted, non-overlapping
    range sets and tables that hold the range strings of the previous
    set, if [HandleUpdate] fails and a second [HandleUpdate] with the same
    arguments then returns success, each table holds exactly the range
    strings of the current set. *)
Theorem HandleUpdate_retry prevRanges currRanges (s s1 s2 : State) e :
  valid_range_set (NewCIDRs prevRanges) = true →
  valid_range_set (NewCIDRs currRanges) = true →
  cloud_table (world s) = range_strings (NewCIDRs prevRanges) →
  host_table (world s) = range_strings (NewCIDRs prevRanges) →
  HandleUpdate prevRanges currRanges s = (Some e, s1) →
  HandleUpdate prevRanges currRanges s1 = (None, s2) →
  cloud_table (world s2) = range_strings (NewCIDRs currRanges) ∧
  host_table (world s2) = range_strings (NewCIDRs currRanges).
Proof.
  intros Hprev Hcurr Hcloud Hhost Hrun1 Hrun2.
  destruct (HandleUpdate_frame_both prevRanges currRanges s) as (F1 & F2 & F3 & F4).
  rewrite Hrun1, removeCommon_difference in F1, F2, F3, F4 by done.
  cbn [fst snd] in F1, F2, F3, F4.
  rewrite HandleUpdate_unfold, removeCommon_difference in Hrun2 by done.
  cbn [fst snd] in Hrun2.
  destruct (addEntries _ s1) as [[e'|] s1'] eqn:Hadd; [done|].
  apply addEntries_tables in Hadd as [Hc1 Hh1].
  apply removeEntries_tables in Hrun2 as [Hc2 Hh2].
  pose proof (reconcile_sets (NewCIDRs prevRanges) (NewCIDRs currRanges)
                (valid_range_set_wf _ Hprev) (valid_range_set_wf _ Hcurr)) as Hrec.
  rewrite Hc2, Hh2, Hc1, Hh1, <- Hrec. rewrite Hcloud in F1, F2. rewrite Hhost in F3, F4.
  split; set_solver.
Qed.

End Frame.

Lemma scripted_fail_laws : @TableFailLaws ipv4_only scripted_tables scripted_view.
Proof.
  split. intros [cl i|r|cl i|r] w e w'; simpl; unfold scripted;
    destruct (t_script w) as [|[e'|] rest]; intros; simplify_eq; done.
Qed.

Lemma HandleUpdate_frame_witness :
  let prev := [net_10_0_0; net_10_0_2] in
  let curr := [net_10_0_1; net_10_0_2] in
  let st := state0 (range_strings prev) {[ "192.168.0.0/16" ]}
              [None; None; Some (backendError "InvalidRoute.NotFound")] in
  let st' := (run_update prev curr st).2 in
  (run_update prev curr st).1
    = Some (errorString "deleteVPCRoute failed: InvalidRoute.NotFound") ∧
  t_cloud (@world scripted_tables st) ∖ range_strings (removeCommon prev curr).1
    ⊆ t_cloud (@world scripted_tables st') ∧
  t_cloud (@world scripted_tables st')
    ⊆ range_strings (removeCommon prev curr).2 ∪ t_cloud (@world scripted_tables st) ∧
  t_host (@world scripted_tables st) ∖ range_strings (removeCommon prev curr).1
    ⊆ t_host (@world scripted_tables st') ∧
  t_host (@world scripted_tables st')
    ⊆ range_strings (removeCommon prev curr).2 ∪ t_host (@world scripted_tables st).
Proof.
  intros prev curr st st'. split; [reflexivity|].
  exact (@HandleUpdate_frame ipv4_only scripted_tables scripted_view
           scripted_laws scripted_fail_laws cidr_ranges prev curr st).
Defined.

Lemma HandleUpdate_keeps_common_routes_witness :
  let prev := [net_10_0_0; net_10_0_2] in
  let curr := [net_10_0_1; net_10_0_2] in
  let st := state0 (range_strings prev) (range_strings prev)
              [None; None; Some (backendError "InvalidRoute.NotFound")] in
  valid_range_set prev = true ∧ valid_range_set curr = true ∧
  net_10_0_2 ∈ prev ∧ net_10_0_2 ∈ curr ∧
  (run_update prev curr st).1
    = Some (errorString "deleteVPCRoute failed: InvalidRoute.NotFound") ∧
  (@CIDR_String net_10_0_2 ∈ t_cloud (@world scripted_tables st) →
   @CIDR_String net_10_0_2 ∈ t_cloud (@world scripted_tables (run_update prev curr st).2)) ∧
  (@CIDR_String net_10_0_2 ∈ t_host (@world scripted_tables st) →
   @CIDR_String net_10_0_2 ∈ t_host (@world scripted_tables (run_update prev curr st).2)).
Proof.
  split; [reflexivity|]. split; [reflexivity|].
  assert (net_10_0_2 ∈ [net_10_0_0; net_10_0_2]) as H1
    by apply list_elem_of_further, list_elem_of_here.
  assert (net_10_0_2 ∈ [net_10_0_1; net_10_0_2]) as H2
    by apply list_elem_of_further, list_elem_of_here.
  split; [exact H1|]. split; [exact H2|]. split; [reflexivity|].
  exact (@HandleUpdate_keeps_common_routes ipv4_only scripted_tables scripted_view
           scripted_laws scripted_fail_laws cidr_ranges
           [net_10_0_0; net_10_0_2] [net_10_0_1; net_10_0_2]
           (state0 (range_strings [net_10_0_0; net_10_0_2])
                   (range_strings [net_10_0_0; net_10_0_2])
                   [None; None; Some (backendError "InvalidRoute.NotFound")])
           net_10_0_2 eq_refl eq_refl H1 H2).
Defined.

Lemma HandleUpdate_retry_witness :
  let prev := [net_10_0_0; net_10_0_2] in
  let curr := [net_10_0_1; net_10_0_2] in
  let st := state0 (range_strings prev) (range_strings prev)
              [None; Some (backendError "file exists")] in
  let st1 := (run_update prev curr st).2 in
  valid_range_set prev = true ∧ valid_range_set curr = true ∧
  (run_update prev curr st).1 = Some (errorString "createHostRoute failed: file exists") ∧
  (run_update prev curr st1).1 = None ∧
  t_cloud (@world scripted_tables (run_update prev curr st1).2) = range_strings curr ∧
  t_host (@world scripted_tables (run_update prev curr st1).2) = range_strings curr.
Proof.
  intros prev curr st st1.
  split; [reflexivity|]. split; [reflexivity|]. split; [reflexivity|].
  split; [reflexivity|].
  apply (@HandleUpdate_retry ipv4_only scripted_tables scripted_view
           scripted_laws scripted_fail_laws cidr_ranges
           prev curr st st1 (run_update prev curr st1).2
           (errorString "createHostRoute failed: file exists"));
    reflexivity.
Defined.

(** * NewAWSVPCTracker and detectRouteTableID *)

Lemma first_table_some resp id :
  first_table resp = Returned (Some id) →
  ∃ out tbl, resp = Some out ∧ head (RouteTables out) = Some (Some tbl) ∧
             id = RouteTableId tbl.
Proof.
  destruct resp as [[tables]|]; [|done]. destruct tables as [|[tbl|] tables]; [done| |done].
  intros [= <-]. by exists {| RouteTables := Some tbl :: tables |}, tbl.
Qed.

Lemma first_table_none resp :
  first_table resp = Returned None → resp = Some {| RouteTables := [] |}.
Proof.
  destruct resp as [[tables]|]; [|done]. by destruct tables as [|[tbl|] tables].
Qed.

Section NewTrackerFacts.
Context `{Backends} `{!Discovery}.

Lemma asked_app {A} (m : DM A) (s : DState) qs :
  d_log (m s).2 = d_log s ++ qs → asked m s = qs.
Proof. intros Hl. unfold asked. by rewrite Hl, drop_app_length. Qed.

(** The runs of [detectRouteTableID], one case for each way out. *)
Lemma detectRouteTableID_cases (t : AWSVPCTracker) (s : DState) :
  let qI := DescribeInstances (ec2 t) {| InstanceIds := [Some (instanceID t)] |} in
  let qT := DescribeRouteTables (ec2 t) in
  let run := detectRouteTableID t s in
  (∃ err, d_log run.2 = d_log s ++ [qI (inl err)] ∧
          run.1 = Returned (inl (Errorf "DescribeInstances failed: " err)))
  ∨ (∃ resp, d_log run.2 = d_log s ++ [qI (inr resp)] ∧
       ((first_instance resp = Panicked ∧ run.1 = Panicked)
        ∨ (first_instance resp = Returned None ∧
           run.1 = Returned (inl (errorString ("cannot find " +:+ instanceID t
                                     +:+ " instance within reservations"))))))
  ∨ (∃ resp inst, first_instance resp = Returned (Some inst) ∧
       ((∃ err, d_log run.2 = d_log s ++ [qI (inr resp);
                    qT (subnet_tables (SubnetId inst)) (inl err)] ∧
                run.1 = Returned (inl (Errorf "DescribeRouteTables failed: " err)))
        ∨ (∃ out, d_log run.2 = d_log s ++ [qI (inr resp);
                    qT (subnet_tables (SubnetId inst)) (inr out)] ∧
             ((first_table out = Panicked ∧ run.1 = Panicked)
              ∨ (∃ id, first_table out = Returned (Some id) ∧
                       run.1 = Returned (inr id))))
        ∨ (∃ out, first_table out = Returned None ∧
             ((∃ err, d_log run.2 = d_log s ++ [qI (inr resp);
                         qT (subnet_tables (SubnetId inst)) (inr out);
                         qT (main_tables (VpcId inst)) (inl err)] ∧
                      run.1 = Returned (inl (Errorf "DescribeRouteTables failed: " err)))
              ∨ (∃ out2, d_log run.2 = d_log s ++ [qI (inr resp);
                         qT (subnet_tables (SubnetId inst)) (inr out);
                         qT (main_tables (VpcId inst)) (inr out2)] ∧
                   ((first_table out2 = Panicked ∧ run.1 = Panicked)
                    ∨ (∃ id, first_table out2 = Returned (Some id) ∧
                             run.1 = Returned (inr id))
                    ∨ (first_table out2 = Returned None ∧
                       run.1 = Returned (inl (errorString
                                 ("cannot find routetable for " +:+ instanceID t
                                  +:+ " instance")))))))))).
Proof.
  intros qI qT run. subst run qI qT.
  unfold detectRouteTableID, mbind, DM_bind, mret, DM_ret, ask.
  destruct (ec2_DescribeInstances _ _ (d_world s)) as [[err|resp] w1].
  { left. by exists err. }
  right. destruct (first_instance resp) as [|[inst|]] eqn:Hinst.
  { left. exists resp. split; [done|]. by left. }
  2:{ left. exists resp. split; [done|]. by right. }
  right. exists resp, inst. split; [done|]. cbn [d_world d_log].
  destruct (ec2_DescribeRouteTables _ (subnet_tables (SubnetId inst)) w1)
    as [[err|out] w2].
  { left. exists err. by rewrite <- app_assoc. }
  right. destruct (first_table out) as [|[id|]] eqn:Hout; cbn [d_world d_log fst snd].
  { left. exists out. split; [by rewrite <- app_assoc|]. by left. }
  { left. exists out. split; [by rewrite <- app_assoc|]. right. by exists id. }
  right. exists out. split; [done|].
  destruct (ec2_DescribeRouteTables _ (main_tables (VpcId inst)) w2)
    as [[err|out2] w3].
  { left. exists err. by rewrite <- !app_assoc. }
  right. exists out2. cbn [d_world d_log].
  destruct (first_table out2) as [|[id|]] eqn:Hout2; cbn [d_world d_log fst snd];
    (split; [by rewrite <- !app_assoc|]).
  - by left.
  - right. left. by exists id.
  - right. by right.
Qed.

Lemma detectRouteTableID_log (t : AWSVPCTracker) (s : DState) :
  d_log (detectRouteTableID t s).2 = d_log s ++ asked (detectRouteTableID t) s.
Proof.
  assert (∀ l, d_log (detectRouteTableID t s).2 = d_log s ++ l →
               d_log (detectRouteTableID t s).2 = d_log s ++ asked (detectRouteTableID t) s)
    as Hqs by (intros l Hl; by rewrite (asked_app _ _ _ Hl)).
  destruct (detectRouteTableID_cases t s)
    as [(err & Hl & _)|[(resp & Hl & _)|(resp & inst & _ & Hcase)]]; eauto.
  destruct Hcase as [(err & Hl & _)|[(out & Hl & _)|(out & _ &
    [(err & Hl & _)|(out2 & Hl & _)])]]; eauto.
Qed.

(** X14. What [detectRouteTableID] returns is the id of the first route
    table of an answer: of the tables associated with the subnet of the
    instance when there is one, and of the main tables of its VPC only
    when the answer for the subnet was empty. A success takes two or
    three questions and no more. *)
Theorem detectRouteTableID_prefers_subnet (t : AWSVPCTracker) (s : DState) id :
  (detectRouteTableID t s).1 = Returned (inr id) →
  ∃ resp inst out tbl,
    first_instance resp = Returned (Some inst) ∧
    head (RouteTables out) = Some (Some tbl) ∧ id = RouteTableId tbl ∧
    let qI := DescribeInstances (ec2 t) {| InstanceIds := [Some (instanceID t)] |}
                (inr resp) in
    (asked (detectRouteTableID t) s
       = [qI; DescribeRouteTables (ec2 t) (subnet_tables (SubnetId inst)) (inr (Some out))]
     ∨ asked (detectRouteTableID t) s
       = [qI;
          DescribeRouteTables (ec2 t) (subnet_tables (SubnetId inst))
            (inr (Some {| RouteTables := [] |}));
          DescribeRouteTables (ec2 t) (main_tables (VpcId inst)) (inr (Some out))]).
Proof.
  intros Hid.
  destruct (detectRouteTableID_cases t s)
    as [(err & _ & Hr)|[(resp & _ & [[_ Hr]|[_ Hr]])|(resp & inst & Hinst & Hcase)]];
    [congruence..|].
  destruct Hcase as [(err & _ & Hr)|[(out & Hl & [[_ Hr]|(id' & Hout & Hr)])|
    (out & Hnone & [(err & _ & Hr)|(out2 & Hl & [[_ Hr]|[(id' & Hout & Hr)|[_ Hr]]])])]];
    try congruence.
  - apply first_table_some in Hout as (o & tbl & -> & Hhd & ->).
    exists resp, inst, o, tbl. split_and!; [done | done | congruence |].
    left. by apply asked_app.
  - apply first_table_some in Hout as (o & tbl & -> & Hhd & ->).
    apply first_table_none in Hnone as ->.
    exists resp, inst, o, tbl. split_and!; [done | done | congruence |].
    right. by apply asked_app.
Qed.

(** X15. Whatever the answers, [detectRouteTableID] asks at most three
    questions, all through the client of the tracker: first for the
    instance with the id of the tracker and no other, then only for route
    tables. Without an instance in the answer (a failure, no reservation,
    or a first reservation with no instance) it asks nothing more and
    fails. *)
Theorem detectRouteTableID_questions (t : AWSVPCTracker) (s : DState) :
  let qs := asked (detectRouteTableID t) s in
  d_log (detectRouteTableID t s).2 = d_log s ++ qs ∧
  (1 ≤ length qs ≤ 3)%nat ∧
  (∃ q, head qs = Some q ∧ is_DescribeInstances t q) ∧
  Forall (is_DescribeRouteTables t) (tail qs) ∧
  (∀ r, head qs = Some (DescribeInstances (ec2 t)
                          {| InstanceIds := [Some (instanceID t)] |} r) →
        match r with inl _ => True | inr resp => first_instance resp = Returned None end →
        qs = [DescribeInstances (ec2 t) {| InstanceIds := [Some (instanceID t)] |} r] ∧
        ∃ e, (detectRouteTableID t s).1 = Returned (inl e)).
Proof.
  intros qs.
  assert (∀ l, d_log (detectRouteTableID t s).2 = d_log s ++ l → qs = l) as Hqs
    by (intros l Hl; by apply asked_app).
  assert (∀ resp l, first_instance resp ≠ Returned None →
        qs = DescribeInstances (ec2 t) {| InstanceIds := [Some (instanceID t)] |}
               (inr resp) :: l →
        ∀ r, head qs = Some (DescribeInstances (ec2 t)
                          {| InstanceIds := [Some (instanceID t)] |} r) →
        match r with inl _ => True | inr resp => first_instance resp = Returned None end →
        qs = [DescribeInstances (ec2 t) {| InstanceIds := [Some (instanceID t)] |} r] ∧
        ∃ e, (detectRouteTableID t s).1 = Returned (inl e)) as Hnone.
  { intros resp l Hne -> r [= <-] Hr. done. }
  assert (∀ q l, is_DescribeInstances t q → Forall (is_DescribeRouteTables t) l →
            (length l ≤ 2)%nat → qs = q :: l →
            (1 ≤ length qs ≤ 3)%nat ∧ (∃ q, head qs = Some q ∧ is_DescribeInstances t q) ∧
            Forall (is_DescribeRouteTables t) (tail qs)) as Hshape.
  { intros q l Hq Hl Hlen ->. simpl. split_and!; [lia | lia | by exists q | done]. }
  assert (∀ r, is_DescribeInstances t
                 (DescribeInstances (ec2 t) {| InstanceIds := [Some (instanceID t)] |} r))
    as HqI by (intros r; by exists r).
  assert (∀ input r, is_DescribeRouteTables t (DescribeRouteTables (ec2 t) input r))
    as HqT by (intros input r; by exists input, r).
  destruct (detectRouteTableID_cases t s)
    as [(err & Hl & Hr)|[(resp & Hl & Hcase)|(resp & inst & Hinst & Hcase)]].
  - pose proof (Hqs _ Hl) as Heq.
    destruct (Hshape _ [] (HqI _) ltac:(constructor) ltac:(simpl; lia) Heq)
      as (Hlen & Hhd & Htl).
    split_and!; [by rewrite Heq | lia | lia | done | done |].
    rewrite Heq. intros r [= <-] _. split; [done|]. eauto.
  - pose proof (Hqs _ Hl) as Heq.
    destruct (Hshape _ [] (HqI _) ltac:(constructor) ltac:(simpl; lia) Heq)
      as (Hlen & Hhd & Htl).
    split_and!; [by rewrite Heq | lia | lia | done | done |].
    destruct Hcase as [[Hp Hr]|[Hn Hr]].
    + apply (Hnone resp []); [congruence | done].
    + rewrite Heq. intros r [= <-] _. split; [done|]. eauto.
  - assert (first_instance resp ≠ Returned None) as Hne by congruence.
    destruct Hcase as [(err & Hl & _)|[(out & Hl & _)|(out & _ &
      [(err & Hl & _)|(out2 & Hl & _)])]];
      pose proof (Hqs _ Hl) as Heq;
      (assert ((1 ≤ length qs ≤ 3)%nat ∧
               (∃ q, head qs = Some q ∧ is_DescribeInstances t q) ∧
               Forall (is_DescribeRouteTables t) (tail qs)) as (Hlen & Hhd & Htl)
         by (eapply Hshape; [apply HqI | | | exact Heq];
             [repeat first [apply Forall_nil_2 | apply Forall_cons_2; [apply HqT|]]
             | simpl; lia]));
      (split_and!; [by rewrite Heq | lia | lia | done | done | by eapply Hnone]).
Qed.

(** The runs of [NewAWSVPCTracker], one case for each way out. *)
Lemma NewAWSVPCTracker_cases (s : DState) :
  let run := NewAWSVPCTracker s in
  (∃ err, d_log run.2 = d_log s ++ [GetMetadata "instance-id" (inl err)] ∧
          run.1 = Returned (inl (Errorf "cannot detect instance-id: " err)))
  ∨ (∃ id err, d_log run.2 = d_log s ++ [GetMetadata "instance-id" (inr id);
                                          Region (inl err)] ∧
          run.1 = Returned (inl (Errorf "cannot detect region: " err)))
  ∨ (∃ id region s1,
       let t0 := {| ec2 := ec2_New region; instanceID := id;
                    routeTableID := EmptyString; linkIndex := 0 |} in
       let found := detectRouteTableID t0 s1 in
       d_log s1 = d_log s ++ [GetMetadata "instance-id" (inr id); Region (inr region)] ∧
       match found.1 with
       | Panicked => d_log run.2 = d_log found.2 ∧ run.1 = Panicked
       | Returned (inl err) => d_log run.2 = d_log found.2 ∧ run.1 = Returned (inl err)
       | Returned (inr None) => d_log run.2 = d_log found.2 ∧ run.1 = Panicked
       | Returned (inr (Some rt)) =>
           ∃ r, d_log run.2 = d_log found.2 ++ [LinkByName WeaveBridgeName r] ∧
             match r with
             | inl err =>
                 run.1 = Returned (inl (errorString
                           ("cannot find " +:+ quote +:+ WeaveBridgeName +:+ quote
                            +:+ " interface: " +:+ Error err)))
             | inr link =>
                 match link_index link with
                 | Panicked => run.1 = Panicked
                 | Returned index =>
                     run.1 = Returned (inr {| ec2 := ec2_New region; instanceID := id;
                                              routeTableID := rt; linkIndex := index |})
                 end
             end
       end).
Proof.
  intros run. subst run.
  unfold NewAWSVPCTracker, mbind, DM_bind, mret, DM_ret, infof, ask.
  destruct (meta_GetMetadata "instance-id" (d_world s)) as [[err|id] w1].
  { left. by exists err. }
  right. cbn [d_world d_log]. destruct (meta_Region w1) as [[err|region] w2].
  { left. exists id, err. by rewrite <- app_assoc. }
  right. cbn [d_world d_log].
  exists id, region,
    {| d_world := w2;
       d_log := (d_log s ++ [GetMetadata "instance-id" (inr id)]) ++ [Region (inr region)] |}.
  cbn zeta. split; [by rewrite <- app_assoc|].
  destruct (detectRouteTableID _ _) as [[|[err|[rt|]]] s2]; cbn [fst snd]; [done..| |done].
  destruct (netlink_LinkByName WeaveBridgeName (d_world s2)) as [[err|link] w3];
    cbn [d_world d_log fst snd].
  { by exists (inl err). }
  exists (inr link). split; [by destruct (link_index link)|].
  by destruct (link_index link).
Qed.

(** X16. [NewAWSVPCTracker] returns a tracker only when all of its
    questions were answered, and the tracker holds the answers: the
    instance id of the metadata service, the client for the region of the
    metadata service, the route table id [detectRouteTableID] found with
    that client and instance id, and the index of the link with the name
    of the weave bridge, which is the last question asked. *)
Theorem NewAWSVPCTracker_tracker (s : DState) (t : AWSVPCTracker) :
  (NewAWSVPCTracker s).1 = Returned (inr t) →
  ∃ region link s1,
    let t0 := {| ec2 := ec2_New region; instanceID := instanceID t;
                 routeTableID := EmptyString; linkIndex := 0 |} in
    asked NewAWSVPCTracker s
      = [GetMetadata "instance-id" (inr (instanceID t)); Region (inr region)]
        ++ asked (detectRouteTableID t0) s1
        ++ [LinkByName WeaveBridgeName (inr link)] ∧
    ec2 t = ec2_New region ∧
    (detectRouteTableID t0 s1).1 = Returned (inr (Some (routeTableID t))) ∧
    link_index link = Returned (linkIndex t).
Proof.
  intros Hrun.
  destruct (NewAWSVPCTracker_cases s)
    as [(err & _ & Hr)|[(id & err & _ & Hr)|(id & region & s1 & Hcase)]];
    [congruence..|].
  cbn zeta in Hcase. destruct Hcase as [Hl1 Hcase].
  pose proof (detectRouteTableID_log
                {| ec2 := ec2_New region; instanceID := id;
                   routeTableID := EmptyString; linkIndex := 0 |} s1) as Hl2.
  destruct (detectRouteTableID _ s1) as [[|[err|[rt|]]] s2] eqn:Hd; cbn [fst snd] in *.
  - destruct Hcase as [_ Hr]. congruence.
  - destruct Hcase as [_ Hr]. congruence.
  - destruct Hcase as ([err|link] & Hl & Hr); [congruence|].
    destruct (link_index link) as [|index] eqn:Hidx; [congruence|].
    rewrite Hr in Hrun. injection Hrun as <-. cbn [ec2 instanceID routeTableID linkIndex].
    exists region, link, s1. rewrite Hd. cbn [fst].
    split_and!; [|done..]. apply asked_app.
    rewrite Hl, Hl2, Hl1. by rewrite <- !app_assoc.
  - destruct Hcase as [_ Hr]. congruence.
Qed.


End NewTrackerFacts.

Lemma detectRouteTableID_prefers_subnet_witness :
  let t0 := @mkTracker scripted_tables tt "i-0123" EmptyString 0 in
  (@detectRouteTableID scripted_tables (scripted_discovery []) t0 dstate0).1
    = Returned (inr (Some "rtb-1")) ∧
  length (@asked scripted_tables _ (@detectRouteTableID scripted_tables
                                      (scripted_discovery []) t0) dstate0) = 3%nat ∧
  ∃ resp inst out tbl,
    first_instance resp = Returned (Some inst) ∧
    head (RouteTables out) = Some (Some tbl) ∧ Some "rtb-1" = RouteTableId tbl.
Proof.
  intros t0. split; [reflexivity|]. split; [reflexivity|].
  destruct (@detectRouteTableID_prefers_subnet scripted_tables (scripted_discovery [])
              t0 dstate0 (Some "rtb-1") eq_refl)
    as (resp & inst & out & tbl & H1 & H2 & H3 & _).
  exact (ex_intro _ resp (ex_intro _ inst (ex_intro _ out (ex_intro _ tbl
           (conj H1 (conj H2 H3)))))).
Defined.

Lemma NewAWSVPCTracker_tracker_witness :
  (@NewAWSVPCTracker scripted_tables (scripted_discovery []) dstate0).1
    = Returned (inr tracker0) ∧
  ∃ region link,
    @ec2 scripted_tables tracker0 = @ec2_New scripted_tables (scripted_discovery []) region ∧
    link_index link = Returned (@linkIndex scripted_tables tracker0).
Proof.
  split; [reflexivity|].
  destruct (@NewAWSVPCTracker_tracker scripted_tables (scripted_discovery [])
              dstate0 tracker0 eq_refl) as (region & link & s1 & _ & H1 & _ & H2).
  exact (ex_intro _ region (ex_intro _ link (conj H1 H2))).
Defined.

(** A first route table without an id, and a nil first route table. *)
Example NewAWSVPCTracker_panics :
  (@NewAWSVPCTracker scripted_tables
     (scripted_discovery [ Some {| RouteTableId := None |} ]) dstate0).1 = Panicked ∧
  (@NewAWSVPCTracker scripted_tables (scripted_discovery [ None ]) dstate0).1 = Panicked ∧
  length (@asked scripted_tables _
            (@NewAWSVPCTracker scripted_tables (scripted_discovery [ None ])) dstate0)
    = 4%nat.
Proof. split_and!; reflexivity. Qed.

(** * removeCommon, applied again *)

Lemma list_difference_disjoint (l k : list CIDR) :
  (∀ x, x ∈ l → x ∉ k) → list_difference l k = l.
Proof.
  induction l as [|x l IH]; intros Hd; [done|].
  rewrite list_difference_cons, decide_False by (apply Hd; left).
  f_equal. apply IH. intros y Hy. apply Hd. by right.
Qed.

(** X18. On sorted, non-overlapping range sets the two outputs of
    [removeCommon] have no range in common, and [removeCommon] applied to
    its own outputs returns them unchanged. *)
Theorem removeCommon_idempotent (a b : list CIDR) :
  valid_range_set a = true → valid_range_set b = true →
  (∀ x, x ∈ (removeCommon a b).1 → x ∉ (removeCommon a b).2) ∧
  removeCommon (removeCommon a b).1 (removeCommon a b).2 = removeCommon a b.
Proof.
  intros Ha Hb.
  assert (valid_range_set (removeCommon a b).1 = true ∧
          valid_range_set (removeCommon a b).2 = true) as [Hv1 Hv2].
  { rewrite removeCommon_merge. destruct (merge_diff_sublists a b) as [H1 H2].
    split; eauto using valid_range_set_sublist. }
  assert (∀ x, x ∈ (removeCommon a b).1 → x ∉ (removeCommon a b).2) as Hdis.
  { rewrite removeCommon_difference by done. cbn [fst snd].
    intros x [Hxa Hxb]%list_elem_of_difference [Hxb' _]%list_elem_of_difference. done. }
  split; [done|].
  rewrite (removeCommon_difference _ _ Hv1 Hv2).
  rewrite !list_difference_disjoint; [by destruct (removeCommon a b) | |done].
  intros x Hx2 Hx1. by apply (Hdis x).
Qed.

Lemma removeCommon_idempotent_witness :
  let a := [net_10_0_0; net_10_0_2] in
  let b := [net_10_0_1; net_10_0_2] in
  valid_range_set a = true ∧ valid_range_set b = true ∧
  removeCommon a b = ([net_10_0_0], [net_10_0_1]) ∧
  removeCommon (removeCommon a b).1 (removeCommon a b).2 = removeCommon a b.
Proof.
  intros a b. split; [reflexivity|]. split; [reflexivity|]. split; [reflexivity|].
  exact (proj2 (removeCommon_idempotent a b eq_refl eq_refl)).
Defined.
